(** * TrafficCue server: the WebSocket location relay

    A shallow embedding of the relay served at [/api/ws]: the process-wide
    table [wsSubscribers], the per-connection closure variable
    [advertising], the handlers [onOpen], [onMessage] and [onClose], and the
    code generator [randomCode].

    The relay is modelled twice.

    [Relay] gives the handlers as functions of the [ws] they are passed,
    over well-typed messages: the [code] field is absent or a string, the
    table is a finite map from codes to arrays, a [gmap string (list conn)],
    and a connection goes by one natural number, which names its closure
    and is the [ws] of all its calls.

    [Relay.Runtime] gives them as the process runs them: every call is
    handed a new [WSContext] for the same socket, the table is a plain
    object with the members of [Object.prototype] behind it, and the [code]
    field is any JSON value.  The places where the relay leaves its
    specification are stated over this second model.

    Common conventions.
    - A parsed inbound message is a record of the fields the handler reads;
      the opaque [location] and [route] payloads are kept as their JSON
      text.
    - [ws.send(JSON.stringify(...))] is recorded as a pair of the handle
      and the message object, before serialisation.
    - [Math.random()] is an oracle: its k-th call in the life of the process
      returns [Math_random k]; the server state counts the calls made. *)

From Stdlib Require Import QArith Qround.
From stdpp Require Import gmap strings list fin_maps.

(** * The HTTP routes and the token check

    The request handlers registered beside the relay, and [verifyToken] and
    [getTokenUID] of the auth module.

    Modelling conventions.
    - [process.env] is a finite map from names to strings; a variable is
      set when it is present and not the empty string.
    - A field of a parsed JSON body is a [js_value]; numbers carry their
      value, and arrays and objects only their text, since the handlers
      test them for truthiness and pass them on.
    - A call that can throw returns an [outcome]; a handler that throws
      sends no reply of its own.
    - The database, the JWKS endpoint, the fuel API and the functions of
      [jsonwebtoken] and [jwk-to-pem] are inputs: the handlers are
      functions of what these return.  Database queries issued are listed
      in the result. *)
Module Api.

Inductive outcome (A : Type) :=
| Returns (a : A)
| Throws.
Arguments Returns {A} a.
Arguments Throws {A}.

(** ** JavaScript values *)

(** [JSON.parse] yields no NaN. *)
Inductive js_number :=
| Finite (q : Q)
| Infinite (negative : bool).

Inductive js_value :=
| Undefined
| Null
| Bool (b : bool)
| Number (x : js_number)
| Str (s : string)
| Structured (text : string).

(** The test behind [!v] and [if (v)]. *)
Definition truthy (v : js_value) : bool :=
  match v with
  | Undefined | Null => false
  | Bool b => b
  | Number (Finite q) => negb (Qeq_bool q 0)
  | Number (Infinite _) => true
  | Str s => negb (bool_decide (s = ""))
  | Structured _ => true
  end.

(** [if (process.env.NAME)] *)
Definition env_set (env : gmap string string) (name : string) : bool :=
  match env !! name with
  | Some v => negb (bool_decide (v = ""))
  | None => false
  end.

(** ** Replies *)

Inductive reply_body :=
| ErrorBody (error : string)
| JsonBody (text : string).

(** [c.json(body, status)]; the status is 200 when not given. *)
Record response := Response {
  status : nat;
  body : reply_body
}.

(** ** [GET /api/config] *)

Record oidc_config := OidcConfig {
  AUTH_URL : option string;
  CLIENT_ID : option string;
  TOKEN_URL : option string
}.

Record config := Config {
  name : string;
  version : string;
  capabilities : list string;
  oidc : option oidc_config
}.

Definition get_config (env : gmap string string) : config :=
  let capabilities := ["auth"; "reviews"] in
  let capabilities :=
    if env_set env "GOOGLE_GENERATIVE_AI_API_KEY"
    then capabilities ++ ["ai"] else capabilities in
  let capabilities :=
    if env_set env "TANKERKOENIG_API_KEY"
    then capabilities ++ ["fuel"] else capabilities in
  {| name := "TrafficCue Server";
     version := "0";
     capabilities := capabilities;
     oidc := if env_set env "OIDC_ENABLED"
             then Some {| AUTH_URL := env !! "OIDC_AUTH_URL";
                          CLIENT_ID := env !! "OIDC_CLIENT_ID";
                          TOKEN_URL := env !! "OIDC_TOKEN_URL" |}
             else None |}.

(** ** Route registration *)

(** The method and path of every handler registered when the module is
    loaded, in registration order. *)
Definition routes (env : gmap string string) : list (string * string) :=
  [("GET", "/api/config"); ("GET", "/api/reviews"); ("POST", "/api/review")]
  ++ (if env_set env "TANKERKOENIG_API_KEY"
      then [("GET", "/api/fuel/list"); ("GET", "/api/fuel/prices");
            ("GET", "/api/fuel/detail")]
      else [])
  ++ (if env_set env "GOOGLE_GENERATIVE_AI_API_KEY"
      then [("POST", "/api/ai")] else [])
  ++ [("GET", "/api/ws"); ("GET", "/")].

(** ** The fuel proxies *)

(** [URLSearchParams.prototype.set]: the first pair with that name takes the
    value and the later ones are dropped; without one, a pair is appended. *)
Fixpoint URLSearchParams_set (name value : string)
    (params : list (string * string)) : list (string * string) :=
  match params with
  | [] => [(name, value)]
  | (n, v) :: rest =>
      if decide (n = name)
      then (name, value) :: filter (λ p, p.1 ≠ name) rest
      else (n, v) :: URLSearchParams_set name value rest
  end.

(** What [fetch(url)] gave: [response.ok] and [response.json()]. *)
Record upstream := Upstream {
  ok : bool;
  json : outcome string
}.

(** The three fuel handlers differ in the script called and in the error
    text.  [toString] is [URLSearchParams.prototype.toString].

    [query] stands for the record [c.req.query()] returns, given by its
    entries in enumeration order, which is what [new URLSearchParams]
    makes of a record.  How the record comes from the request line (one
    value per name, array indices first) is the framework's business and
    not modelled. *)
Definition fuel_params (key : string) (query : list (string * string))
  : list (string * string) :=
  URLSearchParams_set "apikey" key query.

Definition fuel_url (toString : list (string * string) → string)
    (script key : string) (query : list (string * string)) : string :=
  "https://creativecommons.tankerkoenig.de/json/" +:+ script +:+ "?"
  +:+ toString (fuel_params key query).

Definition fuel_handler (toString : list (string * string) → string)
    (fetch : string → outcome upstream) (script failure key : string)
    (query : list (string * string)) : outcome response :=
  match fetch (fuel_url toString script key query) with
  | Throws => Throws
  | Returns res =>
      if negb (ok res) then Returns (Response 200 (ErrorBody failure))
      else match json res with
           | Throws => Throws
           | Returns data => Returns (Response 200 (JsonBody data))
           end
  end.

Definition fuel_list toString fetch :=
  fuel_handler toString fetch "list.php" "Failed to fetch fuel stations".

Definition fuel_prices toString fetch :=
  fuel_handler toString fetch "prices.php" "Failed to fetch fuel prices".

Definition fuel_detail toString fetch :=
  fuel_handler toString fetch "detail.php" "Failed to fetch station details".

(** ** Tokens *)

Record jwk := Jwk {
  kid : string;
  kty : string;
  use : string;
  alg : string;
  n : string;
  e : string
}.

Record jwt_header := JwtHeader { header_kid : option string }.

(** [decode(token, { complete: true })] *)
Record jwt_complete := JwtComplete { header : option jwt_header }.

(** A decoded or verified payload: a string, or an object that may have a
    [sub] member. *)
Inductive jwt_payload :=
| PayloadString (s : string)
| PayloadObject (sub : option string).

(** [decode] gives null for what is no token, and throws on a token whose
    header says JWT and whose payload is not JSON. *)
Record jwt_lib := JwtLib {
  decode : string → outcome (option jwt_payload);
  decode_complete : string → outcome (option jwt_complete);
  jwkToPem : jwk → outcome string;
  verify : string → string → list string → outcome jwt_payload
}.

(** [jwks] is what [fetch(JWKS).then(res => res.json())] gave. *)
Definition verifyToken (lib : jwt_lib) (jwks : outcome (list jwk))
    (token : string) : outcome bool :=
  match decode_complete lib token with
  | Throws => Throws
  | Returns decoded =>
  match jwks with
  | Throws => Throws
  | Returns keys =>
      match decoded with
      | None => Returns false
      | Some d =>
          match header d with
          | None => Returns false
          | Some h =>
              match header_kid h with
              | None => Returns false
              | Some k =>
                  if decide (k = "") then Returns false
                  else match list_find (λ key, kid key = k) keys with
                       | None => Returns false
                       | Some (_, key) =>
                           match jwkToPem lib key with
                           | Throws => Throws
                           | Returns pem =>
                               match verify lib token pem [alg key] with
                               | Throws => Returns false
                               | Returns (PayloadString _) => Returns false
                               | Returns (PayloadObject sub) =>
                                   Returns (bool_decide (is_Some sub))
                               end
                           end
                       end
              end
          end
      end
  end
  end.

Definition getTokenUID (lib : jwt_lib) (token : string)
  : outcome (option string) :=
  match decode lib token with
  | Throws => Throws
  | Returns (Some (PayloadObject (Some sub))) => Returns (Some sub)
  | Returns _ => Returns None
  end.

(** ** [POST /api/review] *)

(** The character U+0020. *)
Definition space : Ascii.ascii :=
  Ascii.Ascii false false false false false true false false.

(** [String.prototype.split] with a one-character separator. *)
Fixpoint split (sep : Ascii.ascii) (s : string) : list string :=
  match s with
  | EmptyString => [""]
  | String a s' =>
      if decide (a = sep) then "" :: split sep s'
      else match split sep s' with
           | x :: xs => String a x :: xs
           | [] => [String a ""]
           end
  end.

Definition startsWith (s searchString : string) : bool :=
  String.prefix searchString s.

(** From the [Authorization] header to the token, or to none where the
    handler answers 401: the header is missing or empty, does not start
    with "Bearer ", or [authHeader.split(" ")[1]] is missing or empty. *)
Definition bearer_token (authHeader : option string) : option string :=
  match authHeader with
  | None => None
  | Some h =>
      if bool_decide (h = "") || negb (startsWith h "Bearer ") then None
      else match split space h !! 1 with
           | None => None
           | Some token => if decide (token = "") then None else Some token
           end
  end.

Record review_request := ReviewRequest {
  rating : js_value;
  comment : js_value;
  lat : js_value;
  lon : js_value;
  Authorization : option string
}.

(** [INSERT INTO reviews (user_id, latitude, longitude, rating, comment)] *)
Inductive db_query :=
| InsertReview (user_id : string) (latitude longitude rating comment : js_value).

Definition unauthorized : response := Response 401 (ErrorBody "Unauthorized").

(** The queries sent to the database, and the reply.  [pool_query] gives
    the row returned by the insert. *)
Definition post_review (lib : jwt_lib) (jwks : outcome (list jwk))
    (pool_query : db_query → outcome string) (req : review_request)
  : list db_query * outcome response :=
  if negb (truthy (rating req)) || negb (truthy (lat req))
     || negb (truthy (lon req))
  then ([], Returns (Response 400
                       (ErrorBody "Rating, latitude, and longitude are required")))
  else
    match bearer_token (Authorization req) with
    | None => ([], Returns unauthorized)
    | Some token =>
        match verifyToken lib jwks token with
        | Throws => ([], Throws)
        | Returns false => ([], Returns unauthorized)
        | Returns true =>
            match getTokenUID lib token with
            | Throws => ([], Throws)
            | Returns None => ([], Returns unauthorized)
            | Returns (Some uid) =>
                if decide (uid = "") then ([], Returns unauthorized)
                else
                  let q := InsertReview uid (lat req) (lon req) (rating req)
                             (comment req) in
                  ([q],
                   match pool_query q with
                   | Throws => Throws
                   | Returns row => Returns (Response 200 (JsonBody row))
                   end)
            end
        end
    end.

(** No character of the string is a space. *)
Definition spaceless (s : string) : Prop :=
  Forall (λ a, a ≠ space) (String.list_ascii_of_string s).

(** ** A stand-in for the libraries, used in examples

    One token, "good", decodes (key id "k1", subject "user-1") and verifies
    under the PEM of the key with modulus "N1"; nothing else does. *)
Definition demo_lib : jwt_lib :=
  {| decode := λ token,
       if decide (token = "good")
       then Returns (Some (PayloadObject (Some "user-1")))
       else Returns None;
     decode_complete := λ token,
       if decide (token = "good")
       then Returns (Some (JwtComplete (Some (JwtHeader (Some "k1")))))
       else Returns None;
     jwkToPem := λ key, Returns ("PEM:" +:+ n key);
     verify := λ token pem algorithms,
       if decide (token = "good" ∧ pem = "PEM:N1" ∧ algorithms = ["RS256"])
       then Returns (PayloadObject (Some "user-1"))
       else Throws |}.

Definition demo_jwks : list jwk :=
  [Jwk "k0" "RSA" "sig" "RS256" "N0" "AQAB";
   Jwk "k1" "RSA" "sig" "RS256" "N1" "AQAB";
   Jwk "k1" "RSA" "sig" "RS256" "N2" "AQAB"].

Definition demo_pool (q : db_query) : outcome string := Returns "{id:1}".

Definition demo_request : review_request :=
  {| rating := Number (Finite 5);
     comment := Str "fine";
     lat := Number (Finite (105 # 2));
     lon := Number (Finite (27 # 2));
     Authorization := Some "Bearer good" |}.

End Api.

Module Relay.

(** ** Data *)

(** A connection.  In this first model it is also the [ws] a handler is
    passed: one value for all the calls of a connection.  The handlers below
    are functions of that argument and say what the code does with whatever
    handle it is given; which handles the adapter gives is the matter of
    [Runtime]. *)
Definition conn := nat.

Definition json := string.

(** [data = JSON.parse(e.data.toString())]: the fields read by [onMessage],
    for a message whose [code], if there is one, is a string.  Other JSON
    values are received in [Runtime]. *)
Record client_msg := ClientMsg {
  type : string;
  code : option string;
  location : option json;
  route : option json
}.

(** The objects passed to [JSON.stringify] before [send]. *)
Inductive server_msg :=
| welcome (message : string)
| advertising_msg (code : string)
| subscribed (code : string)
| location_msg (location route : option json)
| error (message : string).

Definition send := (conn * server_msg)%type.

Record server := Server {
  wsSubscribers : gmap string (list conn);
  advertising : gmap conn string;
  random_calls : nat
}.

(** Every closure starts with [let advertising = ""]. *)
Definition advertising_of (st : server) (ws : conn) : string :=
  default "" (advertising st !! ws).

Definition init : server :=
  {| wsSubscribers := ∅; advertising := ∅; random_calls := 0 |}.

(** ** Code generation *)

Definition characters : string := "ABCDEFGHIJKLMNOPQRSTUVWXYZ0123456789".

(** [String.prototype.charAt]: the empty string when out of range. *)
Definition charAt (s : string) (i : Z) : string :=
  if (i <? 0)%Z then ""
  else match String.get (Z.to_nat i) s with
       | Some a => String a ""
       | None => ""
       end.

(** Numbers are rationals and the product [Math.random() * 36] is exact.  In
    IEEE doubles the product is rounded, which can move an index by one at
    a boundary but not out of range: the largest double below 1, times 36,
    still rounds below 36. *)
Definition Math_floor (x : Q) : Z := Qfloor x.

Section WithRandom.

Variable Math_random : nat → Q.

(** The body of [for (let i = 0; i < length; i++)], with the number of
    iterations left as the recursion argument. *)
Fixpoint randomCode_loop (remaining : nat) (result : string) (calls : nat)
  : string * nat :=
  match remaining with
  | 0 => (result, calls)
  | S remaining' =>
      let i := Math_floor
                 (Math_random calls * inject_Z (Z.of_nat (String.length characters))) in
      randomCode_loop remaining' (result +:+ charAt characters i) (S calls)
  end.

Definition randomCode (length : nat) (calls : nat) : string * nat :=
  randomCode_loop length "" calls.

(** ** Handlers *)

Definition onOpen (ws : conn) (st : server) : server * list send :=
  (st, [(ws, welcome "Welcome to TrafficCue WebSocket!")]).

Definition invalid_code (ws : conn) : list send :=
  [(ws, error "Invalid or unknown code")].

(** [data.code || randomCode()] *)
Definition resolve_code (data : client_msg) (calls : nat) : string * nat :=
  match code data with
  | Some c => if decide (c = "") then randomCode 6 calls else (c, calls)
  | None => randomCode 6 calls
  end.

Definition forEach_location (ws : conn) (data : client_msg)
    (subscribers : list conn) : list send :=
  flat_map (λ subscriber,
              if decide (subscriber ≠ ws)
              then [(subscriber, location_msg (location data) (route data))]
              else [])
           subscribers.

Definition onMessage (ws : conn) (data : client_msg) (st : server)
  : server * list send :=
  if decide (type data = "advertise") then
    let '(c, calls) := resolve_code data (random_calls st) in
    ({| wsSubscribers :=
          <[c := default [] (wsSubscribers st !! c)]> (wsSubscribers st);
        advertising := <[ws := c]> (advertising st);
        random_calls := calls |},
     [(ws, advertising_msg c)])
  else if decide (type data = "subscribe") then
    match code data with
    | None => (st, invalid_code ws)
    | Some c =>
        if decide (c = "") then (st, invalid_code ws)
        else match wsSubscribers st !! c with
             | None => (st, invalid_code ws)
             | Some l =>
                 ({| wsSubscribers := <[c := l ++ [ws]]> (wsSubscribers st);
                     advertising := advertising st;
                     random_calls := random_calls st |},
                  [(ws, subscribed c)])
             end
    end
  else if decide (type data = "location") then
    let subscribers := default [] (wsSubscribers st !! advertising_of st ws) in
    (st, forEach_location ws data subscribers)
  else (st, [(ws, error "Unknown message type")]).

(** One iteration of [for (const code in wsSubscribers)]. *)
Definition onClose_body (ws : conn) (m : gmap string (list conn))
    (c : string) : gmap string (list conn) :=
  match m !! c with
  | Some l =>
      let l' := filter (λ subscriber, subscriber ≠ ws) l in
      if decide (length l' = 0) then delete c (<[c := l']> m)
      else <[c := l']> m
  | None => m
  end.

Definition onClose_loop (ws : conn) (keys : list string)
    (m : gmap string (list conn)) : gmap string (list conn) :=
  foldl (onClose_body ws) m keys.

Definition onClose (ws : conn) (st : server) : server * list send :=
  ({| wsSubscribers :=
        onClose_loop ws (map_to_list (wsSubscribers st)).*1 (wsSubscribers st);
      advertising := advertising st;
      random_calls := random_calls st |},
   []).

(** ** The event loop *)

Inductive event :=
| Open (ws : conn)
| Message (ws : conn) (data : client_msg)
| Close (ws : conn).

Definition handle (ev : event) (st : server) : server * list send :=
  match ev with
  | Open ws => onOpen ws st
  | Message ws data => onMessage ws data st
  | Close ws => onClose ws st
  end.

(** Events are handled one at a time, in arrival order; the second component
    is the log of everything sent so far. *)
Definition step (acc : server * list send) (ev : event) : server * list send :=
  let '(st', out) := handle ev acc.1 in (st', acc.2 ++ out).

Definition run (tr : list event) : server * list send :=
  foldl step (init, []) tr.

End WithRandom.

(** ** Messages of the wire protocol *)

Definition advertise (c : option string) : client_msg :=
  ClientMsg "advertise" c None None.

Definition subscribe (c : option string) : client_msg :=
  ClientMsg "subscribe" c None None.

Definition location_update (loc rt : option json) : client_msg :=
  ClientMsg "location" None loc rt.

(** The alphabet of generated codes: A-Z and 0-9. *)
Definition is_code_char (a : Ascii.ascii) : bool :=
  let n := Ascii.nat_of_ascii a in
  (65 <=? n) && (n <=? 90) || (48 <=? n) && (n <=? 57).

Definition over_alphabet (s : string) : Prop :=
  Forall (λ a, is_code_char a = true) (String.list_ascii_of_string s).

(** The contract of [Math.random]: a number in the interval [0, 1). *)
Definition unit_interval (x : Q) : Prop := (0 <= x)%Q ∧ (x < 1)%Q.

(** The event is an [advertise] message arriving on connection [ws]. *)
Definition advertise_from (ws : conn) (ev : event) : bool :=
  match ev with
  | Message ws' data =>
      bool_decide (ws' = ws) && bool_decide (type data = "advertise")
  | _ => false
  end.

(** No [advertise] message of [ws] occurs in the trace. *)
Definition no_advertise (ws : conn) (tr : list event) : Prop :=
  Forall (λ ev, advertise_from ws ev = false) tr.

(** Some [advertise] message of the trace was confirmed with code [c]. *)
Definition confirmed_in (Math_random : nat → Q) (tr : list event)
    (c : string) : Prop :=
  ∃ tr1 ws data tr2,
    tr = tr1 ++ Message ws data :: tr2
    ∧ type data = "advertise"
    ∧ (onMessage Math_random ws data (run Math_random tr1).1).2
      = [(ws, advertising_msg c)].

(** What one pass of the close handler leaves of an entry. *)
Definition swept (ws : conn) (entry : option (list conn))
  : option (list conn) :=
  match entry with
  | Some l =>
      match filter (λ subscriber, subscriber ≠ ws) l with
      | [] => None
      | l' => Some l'
      end
  | None => None
  end.

Definition occurrences (ws : conn) (l : list conn) : nat :=
  length (filter (λ subscriber, subscriber = ws) l).


(** * The relay as the process runs it

    The definitions above take two things for granted: that a connection is
    handed to its handlers under one and the same [ws], and that the table
    only ever meets well-typed codes.  The process grants neither, and this
    module models what it does instead.

    - The adapter wraps the socket in a new [WSContext] for every handler
      call ([createWSContext(ws)]), so the [ws] of one call is never the
      object a previous call pushed into a subscriber list, although both
      write to the same socket.  A handle is the socket it wraps and the
      identity of the wrapper; the closure variable [advertising] belongs
      to the connection, not to the handle.
    - [wsSubscribers] is a plain object: [wsSubscribers[code]] also finds
      the members inherited from [Object.prototype], an assignment to
      [__proto__] runs the prototype setter and creates no property, and
      [for ... in] enumerates the own properties with array indices first.
    - [data.code] is whatever JSON the client sent.  The handler tests it
      for truthiness, uses its string conversion as the property key, and
      sends the value itself back.
    - A call that runs into a [TypeError] stops there: what was sent before
      stays sent, and nothing else is. *)
Module Runtime.

(** ** Handles *)

Record WSContext := WS {
  raw : conn;
  ident : nat
}.

Global Instance WSContext_eq_dec : EqDecision WSContext.
Proof. solve_decision. Defined.

(** ** The code field *)

(** A JSON value as far as the handler looks at it.  For a boolean, a
    number or an object, [JOther] holds whether it is truthy and what it
    converts to as a string. *)
#[warnings="-register-all"]
Inductive js_value :=
| JString (s : string)
| JArray (items : list js_value)
| JNull
| JOther (is_truthy : bool) (text : string).

Definition truthy (v : js_value) : bool :=
  match v with
  | JString s => negb (bool_decide (s = ""))
  | JArray _ => true
  | JNull => false
  | JOther b _ => b
  end.

(** The conversion behind [wsSubscribers[code]].  An array converts to its
    elements joined by commas, a null element giving the empty string. *)
Fixpoint ToString (v : js_value) : string :=
  match v with
  | JString s => s
  | JArray items =>
      (fix join (l : list js_value) : string :=
         match l with
         | [] => ""
         | [x] => match x with JNull => "" | _ => ToString x end
         | x :: rest =>
             match x with JNull => "" | _ => ToString x end
             +:+ "," +:+ join rest
         end) items
  | JNull => "null"
  | JOther _ text => text
  end.

(** ** The table as an object *)

(** An own property holds an array of handles or, after an [advertise] for
    an inherited name, the inherited member stored back under that name. *)
Inductive entry :=
| Subscribers (l : list WSContext)
| Inherited (name : string).

(** The own properties in [for ... in] order. *)
Definition table := list (string * entry).

(** The property names of [Object.prototype]. *)
Definition Object_prototype : list string :=
  ["constructor"; "__defineGetter__"; "__defineSetter__"; "hasOwnProperty";
   "__lookupGetter__"; "__lookupSetter__"; "isPrototypeOf";
   "propertyIsEnumerable"; "toString"; "valueOf"; "__proto__";
   "toLocaleString"].

Definition digit (a : Ascii.ascii) : option N :=
  let n := Ascii.N_of_ascii a in
  if ((48 <=? n) && (n <=? 57))%N then Some (n - 48)%N else None.

Fixpoint digits (s : string) (acc : N) : option N :=
  match s with
  | EmptyString => Some acc
  | String a s' =>
      match digit a with
      | Some d => digits s' (10 * acc + d)%N
      | None => None
      end
  end.

(** An array index: a canonical decimal numeral below 2^32 - 1. *)
Definition array_index (s : string) : option N :=
  match s with
  | EmptyString => None
  | String a s' =>
      if bool_decide (Ascii.N_of_ascii a = 48%N)
         && negb (bool_decide (s' = ""))
      then None
      else match digits s 0 with
           | Some n => if (n <? 4294967295)%N then Some n else None
           | None => None
           end
  end.

Fixpoint own (t : table) (k : string) : option entry :=
  match t with
  | [] => None
  | (k', e) :: t' => if decide (k' = k) then Some e else own t' k
  end.

(** [wsSubscribers[k]], read. *)
Definition member (t : table) (k : string) : option entry :=
  match own t k with
  | Some e => Some e
  | None =>
      if bool_decide (k ∈ Object_prototype) then Some (Inherited k) else None
  end.

Fixpoint replace (k : string) (e : entry) (t : table) : table :=
  match t with
  | [] => []
  | (k', e') :: t' =>
      if decide (k' = k) then (k, e) :: t' else (k', e') :: replace k e t'
  end.

(** A new array index goes among the indices, in ascending order. *)
Fixpoint insert_index (n : N) (k : string) (e : entry) (t : table) : table :=
  match t with
  | [] => [(k, e)]
  | (k', e') :: t' =>
      match array_index k' with
      | Some n' =>
          if (n' <? n)%N then (k', e') :: insert_index n k e t'
          else (k, e) :: t
      | None => (k, e) :: t
      end
  end.

(** [wsSubscribers[k] = e].  An existing property keeps its place, a new
    one that is not an index goes last, and [__proto__] is no property: the
    value assigned there is always the prototype already in place. *)
Definition assign (k : string) (e : entry) (t : table) : table :=
  if decide (k = "__proto__") then t
  else match own t k with
       | Some _ => replace k e t
       | None =>
           match array_index k with
           | Some n => insert_index n k e t
           | None => t ++ [(k, e)]
           end
       end.

(** [delete wsSubscribers[k]] *)
Definition delete_key (k : string) (t : table) : table :=
  filter (λ p, p.1 ≠ k) t.

(** ** State and messages *)

Record client_msg := ClientMsg {
  type : string;
  code : option js_value;
  location : option json;
  route : option json
}.

Inductive server_msg :=
| welcome (message : string)
| advertising_msg (code : js_value)
| subscribed (code : js_value)
| location_msg (location route : option json)
| error (message : string).

(** A message and the handle [send] was called on; it goes out on the
    socket the handle wraps. *)
Definition send := (WSContext * server_msg)%type.

Record server := Server {
  wsSubscribers : table;
  advertising : gmap conn js_value;
  random_calls : nat;
  contexts : nat
}.

Definition advertising_of (st : server) (self : conn) : js_value :=
  default (JString "") (advertising st !! self).

Definition init : server :=
  {| wsSubscribers := []; advertising := ∅; random_calls := 0;
     contexts := 0 |}.

Inductive completion :=
| Normal
| TypeError.

Record result := Result {
  state : server;
  sent : list send;
  completed : completion
}.

Definition with_table (st : server) (t : table) : server :=
  {| wsSubscribers := t; advertising := advertising st;
     random_calls := random_calls st; contexts := contexts st |}.

Section WithRandom.

Variable Math_random : nat → Q.

(** ** Handlers

    [self] is the connection whose closure is running, [ws] the handle the
    adapter made for this call. *)

Definition onOpen (self : conn) (ws : WSContext) (st : server) : result :=
  Result st [(ws, welcome "Welcome to TrafficCue WebSocket!")] Normal.

Definition invalid_code (ws : WSContext) (st : server) : result :=
  Result st [(ws, error "Invalid or unknown code")] Normal.

(** [data.code || randomCode()] *)
Definition resolve_code (data : client_msg) (calls : nat) : js_value * nat :=
  let generated :=
    let '(s, calls') := randomCode Math_random 6 calls in (JString s, calls') in
  match code data with
  | Some v => if truthy v then (v, calls) else generated
  | None => generated
  end.

Definition forEach_location (ws : WSContext) (data : client_msg)
    (subscribers : list WSContext) : list send :=
  flat_map (λ subscriber,
              if decide (subscriber ≠ ws)
              then [(subscriber, location_msg (location data) (route data))]
              else [])
           subscribers.

Definition onMessage (self : conn) (ws : WSContext) (data : client_msg)
    (st : server) : result :=
  if decide (type data = "advertise") then
    let '(c, calls) := resolve_code data (random_calls st) in
    let k := ToString c in
    let e := default (Subscribers []) (member (wsSubscribers st) k) in
    Result {| wsSubscribers := assign k e (wsSubscribers st);
              advertising := <[self := c]> (advertising st);
              random_calls := calls;
              contexts := contexts st |}
           [(ws, advertising_msg c)] Normal
  else if decide (type data = "subscribe") then
    match code data with
    | None => invalid_code ws st
    | Some c =>
        if negb (truthy c) then invalid_code ws st
        else match member (wsSubscribers st) (ToString c) with
             | None => invalid_code ws st
             | Some (Subscribers l) =>
                 Result (with_table st
                           (assign (ToString c) (Subscribers (l ++ [ws]))
                              (wsSubscribers st)))
                        [(ws, subscribed c)] Normal
             | Some (Inherited _) => Result st [] TypeError
             end
    end
  else if decide (type data = "location") then
    match member (wsSubscribers st) (ToString (advertising_of st self)) with
    | None => Result st [] Normal
    | Some (Subscribers l) => Result st (forEach_location ws data l) Normal
    | Some (Inherited _) => Result st [] TypeError
    end
  else Result st [(ws, error "Unknown message type")] Normal.

(** [for (const code in wsSubscribers)], over the keys found when the loop
    starts; it ends at the first property that has no [filter]. *)
Fixpoint onClose_loop (ws : WSContext) (keys : list string) (t : table)
  : table * completion :=
  match keys with
  | [] => (t, Normal)
  | k :: rest =>
      match member t k with
      | None => onClose_loop ws rest t
      | Some (Subscribers l) =>
          let l' := filter (λ subscriber, subscriber ≠ ws) l in
          let t' := assign k (Subscribers l') t in
          onClose_loop ws rest
            (if decide (length l' = 0) then delete_key k t' else t')
      | Some (Inherited _) => (t, TypeError)
      end
  end.

Definition onClose (self : conn) (ws : WSContext) (st : server) : result :=
  let '(t, c) := onClose_loop ws (wsSubscribers st).*1 (wsSubscribers st) in
  Result (with_table st t) [] c.

(** ** The adapter *)

Inductive event :=
| Open (c : conn)
| Message (c : conn) (data : client_msg)
| Close (c : conn).

(** Every call gets a handle of its own. *)
Definition dispatch (ev : event) (st : server) : result :=
  let st' := {| wsSubscribers := wsSubscribers st;
                advertising := advertising st;
                random_calls := random_calls st;
                contexts := S (contexts st) |} in
  match ev with
  | Open c => onOpen c (WS c (contexts st)) st'
  | Message c data => onMessage c (WS c (contexts st)) data st'
  | Close c => onClose c (WS c (contexts st)) st'
  end.

(** The state reached and everything sent, event by event. *)
Definition step (acc : server * list send) (ev : event) : server * list send :=
  let r := dispatch ev acc.1 in (state r, acc.2 ++ sent r).

Definition run (tr : list event) : server * list send :=
  foldl step (init, []) tr.

End WithRandom.

(** ** Messages of the wire protocol, and some outside it *)

Definition advertise (c : option js_value) : client_msg :=
  ClientMsg "advertise" c None None.

Definition subscribe (c : option js_value) : client_msg :=
  ClientMsg "subscribe" c None None.

Definition location_update (loc rt : option json) : client_msg :=
  ClientMsg "location" None loc rt.

(** The connections a list of sends reaches. *)
Definition recipients (out : list send) : list conn :=
  (λ s, raw s.1) <$> out.

(** The handle [h] is in the array stored under [k]. *)
Definition listed (t : table) (k : string) (h : WSContext) : Prop :=
  ∃ l, own t k = Some (Subscribers l) ∧ h ∈ l.

(** Every handle in the table was made before the next one will be. *)
Definition fresh (st : server) : Prop :=
  ∀ k h, listed (wsSubscribers st) k h → ident h < contexts st.

End Runtime.

(** * Properties *)

(** ** Code generation *)

Example randomCode_zero : randomCode (λ _, 0%Q) 6 0 = ("AAAAAA", 6).
Proof. vm_compute. reflexivity. Qed.

Example randomCode_mixed :
  randomCode (λ k, (Z.of_nat k # 7)%Q) 6 1 = ("FKPUZ4", 7).
Proof. vm_compute. reflexivity. Qed.

Lemma length_append (s t : string) :
  String.length (s +:+ t) = String.length s + String.length t.
Proof. induction s as [|a s IH]; simpl; [done | by rewrite IH]. Qed.

Lemma list_ascii_append (s t : string) :
  String.list_ascii_of_string (s +:+ t)
  = String.list_ascii_of_string s ++ String.list_ascii_of_string t.
Proof. induction s as [|a s IH]; simpl; [done | by rewrite IH]. Qed.

Lemma characters_length : String.length characters = 36.
Proof. reflexivity. Qed.

Lemma characters_get (n : nat) :
  n < 36 → ∃ a, String.get n characters = Some a ∧ is_code_char a = true.
Proof.
  intros Hn.
  do 36 (destruct n as [|n]; [eexists; split; reflexivity |]).
  lia.
Qed.

Lemma characters_all : over_alphabet characters.
Proof. repeat constructor. Qed.

Lemma floor_index (x : Q) :
  unit_interval x →
  (0 <= Math_floor (x * inject_Z (Z.of_nat (String.length characters))) < 36)%Z.
Proof.
  intros [H0 H1]. rewrite characters_length. unfold Math_floor.
  change (Z.of_nat 36) with 36%Z.
  split.
  - rewrite <- (Qfloor_Z 0). apply Qfloor_resp_le.
    change (inject_Z 0) with 0%Q. apply Qmult_le_0_compat; [done | done].
  - rewrite Zlt_Qlt. eapply Qle_lt_trans; [apply Qfloor_le |].
    apply Qlt_le_trans with (1 * inject_Z 36)%Q;
      [apply Qmult_lt_compat_r; done | by vm_compute].
Qed.

Lemma charAt_characters (i : Z) :
  (0 <= i < 36)%Z →
  ∃ a, charAt characters i = String a "" ∧ is_code_char a = true.
Proof.
  intros Hi. unfold charAt.
  destruct (Z.ltb_spec i 0) as [?|_]; [lia |].
  destruct (characters_get (Z.to_nat i)) as (a & -> & Ha); [lia |].
  by exists a.
Qed.

Section CodeSpace.

Variable Math_random : nat → Q.
Hypothesis Math_random_range : ∀ k, unit_interval (Math_random k).

Lemma randomCode_loop_spec (n : nat) (result : string) (calls : nat) :
  over_alphabet result →
  String.length (randomCode_loop Math_random n result calls).1
    = String.length result + n
  ∧ over_alphabet (randomCode_loop Math_random n result calls).1
  ∧ (randomCode_loop Math_random n result calls).2 = calls + n.
Proof.
  revert result calls.
  induction n as [|n IH]; intros result calls Hres.
  - simpl. repeat split; [lia | done | lia].
  - cbn [randomCode_loop].
    destruct (charAt_characters _ (floor_index _ (Math_random_range calls)))
      as (a & Ha & Hok).
    rewrite Ha.
    destruct (IH (result +:+ String a "") (S calls)) as (Hlen & Hall & Hcalls).
    + unfold over_alphabet. rewrite list_ascii_append.
      apply Forall_app. split; [done | by repeat constructor].
    + rewrite Hlen, Hcalls, length_append. simpl.
      repeat split; [lia | done | lia].
Qed.

Lemma randomCode_spec (n calls : nat) :
  String.length (randomCode Math_random n calls).1 = n
  ∧ over_alphabet (randomCode Math_random n calls).1.
Proof.
  unfold randomCode.
  destruct (randomCode_loop_spec n "" calls) as (Hlen & Hall & _);
    [constructor |].
  by split.
Qed.

Lemma randomCode_nonempty (calls : nat) :
  (randomCode Math_random 6 calls).1 ≠ "".
Proof.
  intros Heq. pose proof (randomCode_spec 6 calls) as [Hlen _].
  by rewrite Heq in Hlen.
Qed.

End CodeSpace.

(** ** Delivery loop *)

Lemma forEach_location_filter ws data (subscribers : list conn) :
  forEach_location ws data subscribers
  = (λ s, (s, location_msg (location data) (route data)))
      <$> filter (λ s, s ≠ ws) subscribers.
Proof.
  unfold forEach_location.
  induction subscribers as [|s l IH]; [done |].
  cbn [flat_map]. rewrite filter_cons, IH.
  by destruct (decide (s ≠ ws)).
Qed.

Lemma elem_of_forEach_location ws data (subscribers : list conn) r m :
  (r, m) ∈ forEach_location ws data subscribers
  ↔ r ∈ subscribers ∧ r ≠ ws
    ∧ m = location_msg (location data) (route data).
Proof.
  rewrite forEach_location_filter, list_elem_of_fmap. split.
  - intros (s & [= -> ->] & Hs). apply list_elem_of_filter in Hs. tauto.
  - intros (Hr & Hne & ->). exists r. split; [done |].
    by apply list_elem_of_filter.
Qed.

(** ** The close handler *)

Lemma swept_idemp ws entry : swept ws (swept ws entry) = swept ws entry.
Proof.
  destruct entry as [l|]; [|done].
  assert (filter (λ s, s ≠ ws) (filter (λ s, s ≠ ws) l)
          = filter (λ s, s ≠ ws) l) as Hff.
  { rewrite list_filter_filter. apply list_filter_iff. tauto. }
  cbn [swept]. revert Hff.
  destruct (filter _ l) as [|x l']; [done |].
  intros Hff. cbn [swept]. by rewrite Hff.
Qed.

Lemma onClose_body_lookup ws (m : gmap string (list conn)) k c :
  onClose_body ws m k !! c
  = if decide (c = k) then swept ws (m !! c) else m !! c.
Proof.
  unfold onClose_body.
  destruct (decide (c = k)) as [->|Hne].
  - destruct (m !! k) as [l|] eqn:Hl; cbn [swept]; [|done].
    destruct (filter _ l) as [|x l']; case_decide; try done.
    + by rewrite lookup_delete_eq.
    + by rewrite lookup_insert_eq.
  - destruct (m !! k) as [l|]; [|done].
    case_decide.
    + by rewrite lookup_delete_ne, lookup_insert_ne.
    + by rewrite lookup_insert_ne.
Qed.

(** The result of the loop does not depend on the enumeration order. *)
Lemma onClose_loop_lookup ws keys (m : gmap string (list conn)) c :
  onClose_loop ws keys m !! c
  = if decide (c ∈ keys) then swept ws (m !! c) else m !! c.
Proof.
  unfold onClose_loop. revert m.
  induction keys as [|k keys IH]; intros m; [done |].
  cbn [foldl]. rewrite IH, onClose_body_lookup.
  destruct (decide (c = k)) as [->|Hne].
  - destruct (decide (k ∈ k :: keys)) as [_|Hk]; [|set_solver].
    case_decide; [apply swept_idemp | done].
  - destruct (decide (c ∈ keys)) as [Hc|Hc];
      destruct (decide (c ∈ k :: keys)) as [Hc'|Hc']; try done.
    + exfalso. apply Hc'. by right.
    + apply elem_of_cons in Hc' as [?|?]; done.
Qed.

Lemma onClose_lookup ws st c :
  wsSubscribers (onClose ws st).1 !! c = swept ws (wsSubscribers st !! c).
Proof.
  cbn. rewrite onClose_loop_lookup.
  case_decide as Hin; [done |].
  destruct (wsSubscribers st !! c) as [l|] eqn:Hl; [|done].
  exfalso. apply Hin. apply list_elem_of_fmap.
  exists (c, l). split; [done |]. by apply elem_of_map_to_list.
Qed.

Lemma swept_is_Some ws entry : is_Some (swept ws entry) → is_Some entry.
Proof. destruct entry; [eauto | by intros [? ?]]. Qed.

(** ** The message handler, branch by branch *)

Section Handlers.

Variable Math_random : nat → Q.

Local Abbreviation onMessage := (onMessage Math_random).
Local Abbreviation resolve_code := (resolve_code Math_random).
Local Abbreviation handle := (handle Math_random).
Local Abbreviation step := (step Math_random).
Local Abbreviation run := (run Math_random).

Lemma onMessage_advertise ws data st :
  type data = "advertise" →
  onMessage ws data st =
    let c := (resolve_code data (random_calls st)).1 in
    ({| wsSubscribers :=
          <[c := default [] (wsSubscribers st !! c)]> (wsSubscribers st);
        advertising := <[ws := c]> (advertising st);
        random_calls := (resolve_code data (random_calls st)).2 |},
     [(ws, advertising_msg c)]).
Proof.
  intros Hty. unfold Relay.onMessage. rewrite decide_True by done.
  by destruct (resolve_code data (random_calls st)).
Qed.

Lemma onMessage_subscribe ws data st :
  type data = "subscribe" →
  onMessage ws data st =
    match code data with
    | None => (st, invalid_code ws)
    | Some c =>
        if decide (c = "") then (st, invalid_code ws)
        else match wsSubscribers st !! c with
             | None => (st, invalid_code ws)
             | Some l =>
                 ({| wsSubscribers := <[c := l ++ [ws]]> (wsSubscribers st);
                     advertising := advertising st;
                     random_calls := random_calls st |},
                  [(ws, subscribed c)])
             end
    end.
Proof.
  intros Hty. unfold Relay.onMessage.
  rewrite decide_False by (rewrite Hty; discriminate).
  by rewrite decide_True.
Qed.

Lemma onMessage_location ws data st :
  type data = "location" →
  onMessage ws data st =
    (st, forEach_location ws data
           (default [] (wsSubscribers st !! advertising_of st ws))).
Proof.
  intros Hty. unfold Relay.onMessage.
  rewrite !decide_False by (rewrite Hty; discriminate).
  by rewrite decide_True.
Qed.

(** Only [advertise] changes the key set of the table. *)
Lemma onMessage_dom ws data st :
  type data ≠ "advertise" →
  dom (wsSubscribers (onMessage ws data st).1) = dom (wsSubscribers st).
Proof.
  intros Hty. unfold Relay.onMessage. rewrite decide_False by done.
  repeat case_decide; try done.
  destruct (code data) as [c|]; [|done].
  case_decide; [done |].
  destruct (wsSubscribers st !! c) as [l|] eqn:Hl; [|done].
  cbn. by apply dom_insert_lookup_L.
Qed.

Lemma onMessage_advertising ws ws' data st :
  ws' ≠ ws ∨ type data ≠ "advertise" →
  advertising_of (onMessage ws' data st).1 ws = advertising_of st ws.
Proof.
  intros Hne. unfold Relay.onMessage.
  destruct (decide (type data = "advertise")) as [Hty|Hty].
  - destruct Hne as [Hne|]; [|done].
    destruct (resolve_code data (random_calls st)) as [c calls]. cbn.
    unfold advertising_of. cbn. by rewrite lookup_insert_ne.
  - repeat case_decide; try done.
    destruct (code data) as [c|]; [|done].
    case_decide; [done |].
    by destruct (wsSubscribers st !! c).
Qed.

(** ** Runs *)

Lemma run_snoc tr ev : run (tr ++ [ev]) = step (run tr) ev.
Proof. unfold Relay.run. apply foldl_snoc. Qed.

Lemma run_app tr1 tr2 : run (tr1 ++ tr2) = foldl step (run tr1) tr2.
Proof. unfold Relay.run. apply foldl_app. Qed.

Lemma step_state acc ev : (step acc ev).1 = (handle ev acc.1).1.
Proof. unfold Relay.step. by destruct (handle ev acc.1). Qed.

Lemma handle_advertising ws ev st :
  advertise_from ws ev = false →
  advertising_of (handle ev st).1 ws = advertising_of st ws.
Proof.
  destruct ev as [ws'|ws' data|ws']; cbn; [done | | done].
  intros Hev. apply onMessage_advertising.
  apply andb_false_iff in Hev as [Hev|Hev].
  - left. by apply bool_decide_eq_false in Hev.
  - right. by apply bool_decide_eq_false in Hev.
Qed.

Lemma foldl_step_advertising ws tr acc :
  no_advertise ws tr →
  advertising_of (foldl step acc tr).1 ws = advertising_of acc.1 ws.
Proof.
  intros Hq. revert acc.
  induction Hq as [|ev tr Hev _ IH]; intros acc; [done |].
  cbn [foldl]. rewrite IH, step_state. by apply handle_advertising.
Qed.

Lemma never_advertised ws tr :
  no_advertise ws tr → advertising_of (run tr).1 ws = "".
Proof. intros Hq. unfold Relay.run. by rewrite foldl_step_advertising. Qed.

(** Where a key of the table comes from, one event at a time. *)
Lemma handle_key ev st c :
  is_Some (wsSubscribers (handle ev st).1 !! c) →
  is_Some (wsSubscribers st !! c)
  ∨ ∃ ws data, ev = Message ws data ∧ type data = "advertise"
      ∧ (onMessage ws data st).2 = [(ws, advertising_msg c)].
Proof.
  destruct ev as [ws|ws data|ws]; cbn [Relay.handle].
  - by left.
  - destruct (decide (type data = "advertise")) as [Hty|Hty].
    + rewrite onMessage_advertise by done. cbn [fst snd wsSubscribers].
      set (c0 := (resolve_code data (random_calls st)).1).
      destruct (decide (c0 = c)) as [<-|Hne].
      * intros _. right. exists ws, data. repeat split; [done |].
        by rewrite onMessage_advertise.
      * rewrite lookup_insert_ne by done. by left.
    + intros Hc. left.
      apply (elem_of_dom (D := gset string)).
      apply (elem_of_dom (D := gset string)) in Hc.
      by rewrite onMessage_dom in Hc.
  - rewrite onClose_lookup. intros Hc. left. by eapply swept_is_Some.
Qed.

Lemma run_key tr c :
  is_Some (wsSubscribers (run tr).1 !! c) → confirmed_in Math_random tr c.
Proof.
  induction tr as [|ev tr IH] using rev_ind.
  - cbn. rewrite lookup_empty. by intros [? ?].
  - rewrite run_snoc, step_state. intros Hc.
    apply handle_key in Hc as [Hc | (ws & data & -> & Hty & Hout)].
    + destruct (IH Hc) as (tr1 & ws & data & tr2 & -> & Hty & Hout).
      exists tr1, ws, data, (tr2 ++ [ev]).
      by rewrite <- app_assoc.
    + by exists tr, ws, data, [].
Qed.

End Handlers.

(** ** Location updates with nobody listening *)



(** ** Generated codes *)

(** C6: with [Math.random] in the unit interval, [randomCode n] is a string
    of exactly [n] characters, each from the 36-character alphabet A-Z,
    0-9; and the reply to an [advertise] message without a code carries
    such a string of 6 characters. *)
Theorem generated_code_shape (Math_random : nat → Q) :
  (∀ k, unit_interval (Math_random k)) →
  String.length characters = 36
  ∧ (∀ n calls,
       String.length (randomCode Math_random n calls).1 = n
       ∧ over_alphabet (randomCode Math_random n calls).1)
  ∧ (∀ ws loc rt st, ∃ c,
       (onMessage Math_random ws (ClientMsg "advertise" None loc rt) st).2
       = [(ws, advertising_msg c)]
       ∧ String.length c = 6 ∧ over_alphabet c).
Proof.
  intros Hrange. split; [reflexivity |].
  split; [intros n calls; by apply randomCode_spec |].
  intros ws loc rt st. rewrite onMessage_advertise by done.
  eexists. split; [reflexivity |].
  unfold resolve_code. cbn [code]. by apply randomCode_spec.
Qed.

Lemma generated_code_shape_witness :
  (∀ k : nat, unit_interval ((λ k, Z.of_nat k # Pos.of_nat (S k))%Q k))
  ∧ String.length (randomCode (λ k, Z.of_nat k # Pos.of_nat (S k))%Q 6 0).1 = 6.
Proof.
  assert (∀ k : nat, unit_interval ((λ k, Z.of_nat k # Pos.of_nat (S k))%Q k))
    as Hrange.
  { intros k. unfold unit_interval, Qle, Qlt. cbn [Qnum Qden]. lia. }
  split; [exact Hrange |].
  apply (generated_code_shape _ Hrange).
Defined.

(** ** The advertising code of a connection *)

(** C7: the advertising code of a connection is the empty string as long as
    it has sent no [advertise] message, and otherwise the code confirmed in
    the reply to its most recent [advertise] message, whatever other events
    follow; a [location] message is then delivered from the subscriber list
    of that code alone. *)
Theorem advertising_most_recent (Math_random : nat → Q) (ws : conn)
    (tr1 tr2 : list event) (data upd : client_msg) :
  no_advertise ws tr2 →
  type data = "advertise" →
  type upd = "location" →
  advertising_of (run Math_random tr2).1 ws = ""
  ∧ ∃ c,
      (onMessage Math_random ws data (run Math_random tr1).1).2
      = [(ws, advertising_msg c)]
      ∧ let st := (run Math_random (tr1 ++ Message ws data :: tr2)).1 in
        advertising_of st ws = c
        ∧ (onMessage Math_random ws upd st).2
          = forEach_location ws upd (default [] (wsSubscribers st !! c)).
Proof.
  intros Hq Hty Hupd. split; [by apply never_advertised |].
  rewrite run_app. cbn [foldl].
  rewrite (onMessage_location _ _ upd) by done. cbn [snd].
  rewrite foldl_step_advertising, step_state by done.
  cbn [handle]. rewrite onMessage_advertise by done. cbn [fst snd].
  eexists. split; [reflexivity |].
  unfold advertising_of at 1 2. cbn [advertising].
  rewrite lookup_insert_eq. by cbn.
Qed.

Lemma advertising_most_recent_witness :
  let tr1 := [Open 1; Message 1 (advertise (Some "OLD001"));
              Open 2; Message 2 (subscribe (Some "OLD001"))] in
  let tr2 := [Open 3; Message 3 (subscribe (Some "NEW002"));
              Message 2 (advertise (Some "OTHER3"))] in
  let st := (run (λ _, 0%Q)
               (tr1 ++ Message 1 (advertise (Some "NEW002")) :: tr2)).1 in
  advertising_of st 1 = "NEW002"
  ∧ (onMessage (λ _, 0%Q) 1 (location_update None None) st).2
    = [(3, location_msg None None)].
Proof.
  intros tr1 tr2 st.
  destruct (advertising_most_recent (λ _, 0%Q) 1 tr1 tr2
              (advertise (Some "NEW002")) (location_update None None))
    as (_ & c & Hc & Hadv & Hout).
  - repeat constructor.
  - reflexivity.
  - reflexivity.
  - injection Hc as <-. by split.
Defined.

(** ** Repeated subscription *)

(** C4, as stated, fails: after [subscribe] is processed twice for the same
    code on one connection, that connection is in the list twice. *)
Lemma double_subscribe_counterexample :
  ¬ (∀ (Math_random : nat → Q) (tr : list event) (c : string)
       (l : list conn),
       wsSubscribers (run Math_random tr).1 !! c = Some l → NoDup l).
Proof.
  intros Hclaim.
  pose proof (Hclaim (λ _, 0%Q)
                [Open 1; Message 1 (advertise (Some "ABC123"));
                 Open 2; Message 2 (subscribe (Some "ABC123"));
                 Message 2 (subscribe (Some "ABC123"))]
                "ABC123" [2; 2] eq_refl) as Hnodup.
  apply NoDup_cons in Hnodup as [Hnotin _].
  apply Hnotin. by left.
Qed.

(** C4, amended: a successful [subscribe] appends the connection to the end
    of the code's list without looking for an earlier occurrence.  Each one
    raises the number of occurrences of the connection by one, so after two
    of them the connection is there twice; other codes are untouched. *)
Theorem subscribe_appends (Math_random : nat → Q) (ws : conn)
    (data : client_msg) (st : server) (c : string) (l : list conn) :
  type data = "subscribe" →
  code data = Some c →
  c ≠ "" →
  wsSubscribers st !! c = Some l →
  let st1 := (onMessage Math_random ws data st).1 in
  let st2 := (onMessage Math_random ws data st1).1 in
  (onMessage Math_random ws data st).2 = [(ws, subscribed c)]
  ∧ wsSubscribers st1 = <[c := l ++ [ws]]> (wsSubscribers st)
  ∧ occurrences ws (l ++ [ws]) = S (occurrences ws l)
  ∧ wsSubscribers st2 !! c = Some (l ++ [ws; ws]).
Proof.
  intros Hty Hcode Hne Hl st1 st2.
  assert (onMessage Math_random ws data st
          = ({| wsSubscribers := <[c := l ++ [ws]]> (wsSubscribers st);
                advertising := advertising st;
                random_calls := random_calls st |},
             [(ws, subscribed c)])) as Hst1.
  { rewrite onMessage_subscribe by done.
    by rewrite Hcode, decide_False, Hl by done. }
  assert (wsSubscribers st2 !! c = Some (l ++ [ws; ws])) as Hst2.
  { subst st2 st1. rewrite Hst1. cbn [fst].
    rewrite onMessage_subscribe by done.
    rewrite Hcode, decide_False by done. cbn [wsSubscribers].
    rewrite lookup_insert_eq. cbn [fst wsSubscribers].
    by rewrite lookup_insert_eq, <- app_assoc. }
  subst st1. rewrite Hst1. cbn [fst snd wsSubscribers].
  repeat split; try done.
  unfold occurrences. rewrite filter_app, length_app.
  rewrite filter_cons_True by done. cbn. lia.
Qed.

Lemma subscribe_appends_witness :
  let st := (run (λ _, 0%Q)
               [Open 1; Message 1 (advertise (Some "ABC123"));
                Open 2; Message 2 (subscribe (Some "ABC123"))]).1 in
  let st2 := (onMessage (λ _, 0%Q) 2 (subscribe (Some "ABC123")) st).1 in
  wsSubscribers st2 = <[ "ABC123" := [2] ++ [2] ]> (wsSubscribers st).
Proof.
  intros st st2.
  apply (subscribe_appends (λ _, 0%Q) 2 (subscribe (Some "ABC123")) st
           "ABC123" [2]); [reflexivity | reflexivity | discriminate |].
  reflexivity.
Defined.

(** ** Closing a connection *)

(** C2, at the failing input: connection 1 advertises "ABC123", which
    stores an empty list under that code; connection 2, which never
    subscribed to anything, then closes, and the close handler deletes the
    entry although connection 2 was not in its list. *)
Theorem close_deletes_fresh_entry :
  let st := (run (λ _, 0%Q)
               [Open 1; Message 1 (advertise (Some "ABC123")); Open 2]).1 in
  wsSubscribers st !! "ABC123" = Some []
  ∧ wsSubscribers (onClose 2 st).1 !! "ABC123" = None
  ∧ onMessage (λ _, 0%Q) 3 (subscribe (Some "ABC123")) (onClose 2 st).1
    = ((onClose 2 st).1, [(3, error "Invalid or unknown code")]).
Proof. vm_compute. repeat split. Qed.

(** * Further properties of the relay *)

(** ** What closing a connection does to the table *)


Lemma swept_filter ws l :
  swept ws (Some l)
  = if decide (filter (λ s, s ≠ ws) l = []) then None
    else Some (filter (λ s, s ≠ ws) l).
Proof. cbn [swept]. by destruct (filter _ l). Qed.

Lemma swept_swept a b entry :
  swept a (swept b entry) = swept b (swept a entry).
Proof.
  destruct entry as [l|]; [|done].
  assert (filter (λ s, s ≠ a) (filter (λ s, s ≠ b) l)
          = filter (λ s, s ≠ b) (filter (λ s, s ≠ a) l)) as Hcomm.
  { rewrite !list_filter_filter. apply list_filter_iff. tauto. }
  rewrite (swept_filter b), (swept_filter a).
  destruct (decide (filter (λ s, s ≠ b) l = [])) as [Hb|Hb];
    destruct (decide (filter (λ s, s ≠ a) l = [])) as [Ha|Ha].
  - done.
  - rewrite swept_filter, <- Hcomm, Hb. by rewrite decide_True.
  - rewrite swept_filter, Hcomm, Ha. by rewrite decide_True.
  - by rewrite !swept_filter, Hcomm.
Qed.

(** The table left by two closes does not depend on their order, and
    closing the same connection again changes nothing. *)
Theorem close_commutes (a b : conn) (st : server) :
  wsSubscribers (onClose a (onClose b st).1).1
  = wsSubscribers (onClose b (onClose a st).1).1
  ∧ wsSubscribers (onClose a (onClose a st).1).1
    = wsSubscribers (onClose a st).1.
Proof.
  split; apply map_eq; intros c; rewrite !onClose_lookup.
  - apply swept_swept.
  - apply swept_idemp.
Qed.



(** ** What a message can and cannot do *)

(** No message removes a key or a subscriber: whatever the message, every
    list of the table is kept as a prefix of the list found under the same
    code afterwards, and the only thing ever appended is the sender. *)
Theorem message_keeps_subscribers (Math_random : nat → Q) (ws : conn)
    (data : client_msg) (st : server) (c : string) (l : list conn) :
  wsSubscribers st !! c = Some l →
  wsSubscribers (onMessage Math_random ws data st).1 !! c = Some l
  ∨ wsSubscribers (onMessage Math_random ws data st).1 !! c
    = Some (l ++ [ws]).
Proof.
  intros Hl.
  destruct (decide (type data = "advertise")) as [Hty|Hadv].
  { left. rewrite onMessage_advertise by done. cbn [fst wsSubscribers].
    set (c0 := (resolve_code Math_random data (random_calls st)).1).
    destruct (decide (c0 = c)) as [->|Hne].
    - by rewrite lookup_insert_eq, Hl.
    - by rewrite lookup_insert_ne. }
  destruct (decide (type data = "subscribe")) as [Hty|Hsub].
  { rewrite onMessage_subscribe by done.
    destruct (code data) as [c0|]; [|by left].
    case_decide; [by left |].
    destruct (wsSubscribers st !! c0) as [l0|] eqn:Hl0; [|by left].
    cbn [fst wsSubscribers].
    destruct (decide (c0 = c)) as [->|Hne].
    - right. rewrite lookup_insert_eq. congruence.
    - left. by rewrite lookup_insert_ne. }
  left. unfold onMessage. rewrite !decide_False by done.
  by case_decide.
Qed.

Lemma message_keeps_subscribers_witness :
  let st := {| wsSubscribers := {["ABC123" := [2; 3]]};
               advertising := ∅; random_calls := 0 |} in
  wsSubscribers
    (onMessage (λ _, 0%Q) 5 (advertise (Some "ABC123")) st).1 !! "ABC123"
  = Some [2; 3]
  ∨ wsSubscribers
      (onMessage (λ _, 0%Q) 5 (advertise (Some "ABC123")) st).1 !! "ABC123"
    = Some ([2; 3] ++ [5]).
Proof.
  intros st.
  apply (message_keeps_subscribers (λ _, 0%Q) 5 (advertise (Some "ABC123"))
           st "ABC123" [2; 3]).
  reflexivity.
Defined.

(** ** Who is in a subscriber list, over whole runs *)




(** * The relay as the process runs it: where it leaves the specification *)

Section Served.

Import Runtime.

Example ToString_empty_array : ToString (JArray []) = "".
Proof. reflexivity. Qed.

Example ToString_nested :
  ToString (JArray [JString "a"; JNull; JArray [JOther true "1"; JString "b"]])
  = "a,,1,b".
Proof. reflexivity. Qed.

Example array_index_digits :
  array_index "123456" = Some 123456%N ∧ array_index "012345" = None
  ∧ array_index "4294967295" = None ∧ array_index "ABC123" = None.
Proof. repeat split. Qed.

Example assign_index_first :
  assign "42" (Subscribers [])
    [("7", Subscribers []); ("100", Subscribers []); ("ABC123", Subscribers [])]
  = [("7", Subscribers []); ("42", Subscribers []); ("100", Subscribers []);
     ("ABC123", Subscribers [])].
Proof. reflexivity. Qed.

(** ** The table, one property at a time *)

Lemma own_replace (k k' : string) (e : entry) (t : table) :
  own (replace k e t) k'
  = if decide (k = k') then (λ _, e) <$> own t k else own t k'.
Proof.
  induction t as [|[k0 e0] t IH]; cbn [replace own].
  - by case_decide.
  - destruct (decide (k0 = k)) as [->|Hk0]; cbn [own].
    + destruct (decide (k = k')) as [->|Hne]; [done | done].
    + rewrite IH. destruct (decide (k = k')) as [<-|Hne]; [|done].
      by rewrite decide_False.
Qed.

Lemma own_insert_index (n : N) (k k' : string) (e : entry) (t : table) :
  own t k = None →
  own (insert_index n k e t) k'
  = if decide (k = k') then Some e else own t k'.
Proof.
  induction t as [|[k0 e0] t IH]; cbn [insert_index own]; [done |].
  destruct (decide (k0 = k)) as [->|Hk0]; [done |]. intros Hnone.
  destruct (array_index k0) as [n0|]; [destruct (n0 <? n)%N |];
    cbn [own]; try done.
  rewrite IH by done.
  destruct (decide (k = k')) as [<-|Hne]; [by rewrite decide_False | done].
Qed.

Lemma own_app (k k' : string) (e : entry) (t : table) :
  own (t ++ [(k, e)]) k'
  = match own t k' with
    | Some x => Some x
    | None => if decide (k = k') then Some e else None
    end.
Proof.
  induction t as [|[k0 e0] t IH]; cbn [app own].
  - by case_decide.
  - by destruct (decide (k0 = k')).
Qed.

Lemma own_assign (k k' : string) (e : entry) (t : table) :
  own (assign k e t) k'
  = if decide (k = "__proto__") then own t k'
    else if decide (k = k') then Some e else own t k'.
Proof.
  unfold assign. case_decide; [done |].
  destruct (own t k) as [e0|] eqn:Hown.
  - rewrite own_replace, Hown. by case_decide.
  - destruct (array_index k) as [n|].
    + by apply own_insert_index.
    + rewrite own_app. destruct (decide (k = k')) as [<-|Hne].
      * by rewrite Hown.
      * by destruct (own t k').
Qed.

Lemma own_delete_key (k k' : string) (t : table) :
  own (delete_key k t) k' = if decide (k = k') then None else own t k'.
Proof.
  unfold delete_key, table.
  induction t as [|[k0 e0] t IH]; cbn [own]; [by case_decide |].
  destruct (decide (k0 = k)) as [->|Hk0].
  - rewrite filter_cons_False by (cbn; tauto). rewrite IH.
    destruct (decide (k = k')); [done | done].
  - rewrite filter_cons_True by done. cbn [own]. rewrite IH.
    destruct (decide (k = k')) as [<-|Hne]; [by rewrite decide_False | done].
Qed.

Lemma member_Subscribers (t : table) (k : string) (l : list WSContext) :
  member t k = Some (Subscribers l) ↔ own t k = Some (Subscribers l).
Proof.
  unfold member. destruct (own t k) as [e|]; [done |].
  by case_bool_decide.
Qed.

(** ** Handles are never met again *)

Lemma filter_fresh (ws : WSContext) (l : list WSContext) :
  ws ∉ l → filter (λ subscriber, subscriber ≠ ws) l = l.
Proof.
  induction l as [|h l IH]; [done |].
  intros Hnotin. apply not_elem_of_cons in Hnotin as [Hne Hnotin].
  rewrite filter_cons_True by done. by rewrite IH.
Qed.

Lemma forEach_location_fresh (ws : WSContext) (data : client_msg)
    (l : list WSContext) :
  ws ∉ l →
  forEach_location ws data l
  = (λ h, (h, location_msg (location data) (route data))) <$> l.
Proof.
  unfold forEach_location. induction l as [|h l IH]; [done |].
  intros Hnotin. apply not_elem_of_cons in Hnotin as [Hne Hnotin].
  cbn [flat_map fmap list_fmap]. rewrite decide_True by done.
  cbn [app]. f_equal. by apply IH.
Qed.

(** The close loop keeps, under every key, a part of what was there. *)
Lemma onClose_loop_sublist (ws : WSContext) (keys : list string) (t : table)
    (k : string) (l : list WSContext) :
  own (onClose_loop ws keys t).1 k = Some (Subscribers l) →
  ∃ l0, own t k = Some (Subscribers l0) ∧ l ⊆ l0.
Proof.
  revert t. induction keys as [|k0 keys IH]; intros t; cbn [onClose_loop].
  - intros Hl. by exists l.
  - destruct (member t k0) as [[l0|name]|] eqn:Hmem; [| by eauto | by apply IH].
    apply member_Subscribers in Hmem.
    intros Hl. apply IH in Hl as (l1 & Hl1 & Hsub).
    assert (∃ l2, own (assign k0 (Subscribers (filter (λ s, s ≠ ws) l0)) t) k
                  = Some (Subscribers l2) ∧ l ⊆ l2) as (l2 & Hl2 & Hsub2).
    { case_decide; [|by eauto].
      rewrite own_delete_key in Hl1. case_decide; [done | by eauto]. }
    rewrite own_assign in Hl2.
    case_decide; [by eauto |].
    case_decide as Hk; [|by eauto].
    subst k0. injection Hl2 as <-. exists l0. split; [done |].
    intros h Hh. apply Hsub2 in Hh. apply list_elem_of_filter in Hh. tauto.
Qed.

(** An array that the handle is not in, and that is not empty, comes
    through the close loop as it was. *)
Lemma onClose_loop_keeps (ws : WSContext) (keys : list string) (t : table)
    (k : string) (l : list WSContext) :
  own t k = Some (Subscribers l) → ws ∉ l → l ≠ [] →
  own (onClose_loop ws keys t).1 k = Some (Subscribers l).
Proof.
  intros Hl Hnotin Hne. revert t Hl.
  induction keys as [|k0 keys IH]; intros t Hl; cbn [onClose_loop]; [done |].
  destruct (member t k0) as [[l0|name]|] eqn:Hmem; [| done | by apply IH].
  apply member_Subscribers in Hmem. apply IH.
  destruct (decide (k0 = k)) as [->|Hk].
  - rewrite Hl in Hmem. injection Hmem as <-.
    rewrite filter_fresh by done.
    rewrite decide_False by (by destruct l).
    rewrite own_assign. repeat case_decide; done.
  - case_decide.
    + rewrite own_delete_key, decide_False by done.
      rewrite own_assign. repeat case_decide; done.
    + rewrite own_assign. repeat case_decide; done.
Qed.

Section Runs.

Variable Math_random : nat → Q.

Lemma served_snoc (tr : list event) (ev : event) :
  run Math_random (tr ++ [ev])
  = step Math_random (run Math_random tr) ev.
Proof. unfold run. apply foldl_snoc. Qed.

Lemma served_app (tr tr' : list event) :
  run Math_random (tr ++ tr')
  = foldl (step Math_random) (run Math_random tr) tr'.
Proof. unfold run. apply foldl_app. Qed.

Lemma served_state (acc : server * list send) (ev : event) :
  (step Math_random acc ev).1 = state (dispatch Math_random ev acc.1).
Proof. done. Qed.

(** Where a listing found after an event comes from: it was there before,
    or it is the handle made for this call. *)
Lemma dispatch_listed (ev : event) (st : server) (k : string)
    (h : WSContext) :
  listed (wsSubscribers (state (dispatch Math_random ev st))) k h →
  listed (wsSubscribers st) k h ∨ ident h = contexts st.
Proof.
  intros (l & Hl & Hh). revert Hl.
  destruct ev as [c|c data|c]; cbn [dispatch].
  - cbn. intros Hl. left. by exists l.
  - unfold onMessage. cbn [wsSubscribers advertising random_calls contexts].
    destruct (decide (type data = "advertise")) as [Hadv|Hadv].
    { destruct (resolve_code Math_random data (random_calls st)) as [v calls].
      cbn [state wsSubscribers]. rewrite own_assign.
      case_decide; [intros Hl; left; by exists l |].
      case_decide as Hk; [|intros Hl; left; by exists l].
      destruct (member (wsSubscribers st) (ToString v)) as [e0|] eqn:Hmem;
        cbn [default].
      - intros [= ->]. apply member_Subscribers in Hmem.
        left. exists l. by rewrite <- Hk.
      - intros [= <-]. inversion Hh. }
    destruct (decide (type data = "subscribe")) as [Hsub|Hsub].
    { destruct (code data) as [v|]; [|intros Hl; left; by exists l].
      destruct (truthy v); cbn [negb]; [|intros Hl; left; by exists l].
      destruct (member (wsSubscribers st) (ToString v)) as [[l0|name]|]
        eqn:Hmem; cbn [state invalid_code with_table wsSubscribers];
        try (intros Hl; left; by exists l).
      apply member_Subscribers in Hmem. rewrite own_assign.
      case_decide; [intros Hl; left; by exists l |].
      case_decide as Hk; [|intros Hl; left; by exists l].
      intros [= <-]. apply elem_of_app in Hh as [Hh|Hh].
      - left. exists l0. by rewrite <- Hk.
      - apply list_elem_of_singleton in Hh as ->. by right. }
    destruct (decide (type data = "location")) as [Hloc|Hloc].
    { destruct (member _ _) as [[l0|name]|]; cbn;
        intros Hl; left; by exists l. }
    cbn. intros Hl. left. by exists l.
  - unfold onClose. cbn [wsSubscribers].
    destruct (onClose_loop _ _ _) as [t c0] eqn:Hloop.
    cbn [state with_table wsSubscribers]. intros Hl.
    assert (t = (onClose_loop (WS c (contexts st)) (wsSubscribers st).*1
                   (wsSubscribers st)).1) as -> by by rewrite Hloop.
    apply onClose_loop_sublist in Hl as (l0 & Hl0 & Hsub).
    left. exists l0. split; [done | by apply Hsub].
Qed.

Lemma dispatch_contexts (ev : event) (st : server) :
  contexts (state (dispatch Math_random ev st)) = S (contexts st).
Proof.
  destruct ev as [c|c data|c]; cbn [dispatch]; [done | |].
  - unfold onMessage. cbn [random_calls wsSubscribers advertising].
    repeat case_decide; try done.
    + by destruct (resolve_code Math_random data (random_calls st)).
    + destruct (code data) as [v|]; [|done].
      destruct (truthy v); [|done].
      by destruct (member _ _) as [[l|name]|].
    + by destruct (member _ _) as [[l|name]|].
  - unfold onClose. by destruct (onClose_loop _ _ _).
Qed.

Lemma dispatch_fresh (ev : event) (st : server) :
  fresh st → fresh (state (dispatch Math_random ev st)).
Proof.
  intros Hfresh k h Hlisted. rewrite dispatch_contexts.
  apply dispatch_listed in Hlisted as [Hbefore | ->]; [|lia].
  apply Hfresh in Hbefore. lia.
Qed.

Lemma run_fresh (tr : list event) : fresh (run Math_random tr).1.
Proof.
  induction tr as [|ev tr IH] using rev_ind.
  - intros k h (l & Hl & _). done.
  - rewrite served_snoc, served_state. by apply dispatch_fresh.
Qed.

(** The handle of a call is in no array of the table it finds. *)
Lemma fresh_handle (st : server) (c : conn) (k : string)
    (l : list WSContext) :
  fresh st → own (wsSubscribers st) k = Some (Subscribers l) →
  WS c (contexts st) ∉ l.
Proof.
  intros Hfresh Hl Hin.
  assert (ident (WS c (contexts st)) < contexts st) as Hlt
    by (apply (Hfresh k); by exists l).
  cbn in Hlt. lia.
Qed.

(** In a state whose handles are all older than the next one, no event
    takes a handle out of the array it is in. *)
Lemma dispatch_keeps_listed (ev : event) (st : server) (k : string)
    (h : WSContext) :
  fresh st →
  listed (wsSubscribers st) k h →
  listed (wsSubscribers (state (dispatch Math_random ev st))) k h.
Proof.
  intros Hfresh (l & Hl & Hh).
  destruct ev as [c|c data|c]; cbn [dispatch].
  - by exists l.
  - unfold onMessage. cbn [wsSubscribers advertising random_calls contexts].
    destruct (decide (type data = "advertise")) as [Hadv|Hadv].
    { destruct (resolve_code Math_random data (random_calls st)) as [v calls].
      cbn [state wsSubscribers]. exists l. split; [|done].
      rewrite own_assign. case_decide; [done |].
      case_decide as Hk; [|done].
      rewrite Hk, (proj2 (member_Subscribers _ _ _) Hl). done. }
    destruct (decide (type data = "subscribe")) as [Hsub|Hsub].
    { destruct (code data) as [v|]; [|by exists l].
      destruct (truthy v); cbn [negb]; [|by exists l].
      destruct (member (wsSubscribers st) (ToString v)) as [[l0|name]|]
        eqn:Hmem; cbn [state invalid_code with_table wsSubscribers];
        try (by exists l).
      apply member_Subscribers in Hmem.
      destruct (decide (ToString v = k)) as [Hk|Hk].
      - rewrite Hk in Hmem. rewrite Hmem in Hl. injection Hl as ->.
        destruct (decide (k = "__proto__")) as [Hproto|Hproto].
        + exists l. split; [|done].
          by rewrite own_assign, Hk, decide_True.
        + exists (l ++ [WS c (contexts st)]). split; [|set_solver].
          rewrite own_assign, Hk, decide_False by done.
          by rewrite decide_True.
      - exists l. split; [|done]. rewrite own_assign.
        case_decide; [done |]. by rewrite decide_False. }
    destruct (decide (type data = "location")) as [Hloc|Hloc].
    { destruct (member _ _) as [[l0|name]|]; by exists l. }
    by exists l.
  - unfold onClose. cbn [wsSubscribers].
    destruct (onClose_loop _ _ _) as [t c0] eqn:Hloop.
    cbn [state with_table wsSubscribers]. exists l. split; [|done].
    assert (t = (onClose_loop (WS c (contexts st)) (wsSubscribers st).*1
                   (wsSubscribers st)).1) as -> by by rewrite Hloop.
    apply onClose_loop_keeps; [done | by eapply fresh_handle |].
    intros ->. inversion Hh.
Qed.

Lemma foldl_step_keeps_listed (tr : list event) (acc : server * list send)
    (k : string) (h : WSContext) :
  fresh acc.1 →
  listed (wsSubscribers acc.1) k h →
  listed (wsSubscribers (foldl (step Math_random) acc tr).1) k h.
Proof.
  revert acc. induction tr as [|ev tr IH]; intros acc Hfresh Hlisted; [done |].
  cbn [foldl]. apply IH; rewrite served_state.
  - by apply dispatch_fresh.
  - by apply dispatch_keeps_listed.
Qed.

End Runs.

(** C1, at the failing input: connection 1 advertises "ABC123", subscribes
    to its own code and sends a location update.  The handle that
    [subscribe] pushed is not the handle of the [location] call, so the
    test [subscriber !== ws] lets it through, and the one message sent goes
    out on connection 1's own socket. *)
Theorem location_echo :
  let st := (run (λ _, 0%Q)
               [Open 1;
                Message 1 (advertise (Some (JString "ABC123")));
                Message 1 (subscribe (Some (JString "ABC123")))]).1 in
  let r := dispatch (λ _, 0%Q)
             (Message 1 (location_update (Some "{lat:1,lon:2}") (Some "[]")))
             st in
  wsSubscribers st = [("ABC123", Subscribers [WS 1 2])]
  ∧ advertising_of st 1 = JString "ABC123"
  ∧ sent r = [(WS 1 2, location_msg (Some "{lat:1,lon:2}") (Some "[]"))]
  ∧ recipients (sent r) = [1]
  ∧ completed r = Normal.
Proof. vm_compute. repeat split. Qed.

(** C3, at the failing input: on the empty table a [subscribe] for
    "constructor", a code nobody advertised, finds the member inherited
    from [Object.prototype], gets past the guard and fails on [push]: no
    [error] reply is sent, nor anything else.  The same for "__proto__". *)
Theorem subscribe_inherited_name :
  let r := dispatch (λ _, 0%Q)
             (Message 7 (subscribe (Some (JString "constructor")))) init in
  let r' := dispatch (λ _, 0%Q)
              (Message 7 (subscribe (Some (JString "__proto__")))) init in
  own (wsSubscribers init) "constructor" = None
  ∧ sent r = [] ∧ completed r = TypeError ∧ wsSubscribers (state r) = []
  ∧ sent r' = [] ∧ completed r' = TypeError ∧ wsSubscribers (state r') = [].
Proof. vm_compute. repeat split. Qed.

(** C5, at the failing input: an [advertise] with the code "__proto__" is
    confirmed with that code, but the assignment goes to the prototype
    setter and the table gets no key: a [subscribe] for the confirmed code
    then fails on [push]. *)
Theorem advertise_proto_no_key :
  let r := dispatch (λ _, 0%Q)
             (Message 1 (advertise (Some (JString "__proto__")))) init in
  let r' := dispatch (λ _, 0%Q)
              (Message 2 (subscribe (Some (JString "__proto__")))) (state r) in
  sent r = [(WS 1 0, advertising_msg (JString "__proto__"))]
  ∧ completed r = Normal
  ∧ wsSubscribers (state r) = []
  ∧ advertising_of (state r) 1 = JString "__proto__"
  ∧ sent r' = [] ∧ completed r' = TypeError.
Proof. vm_compute. repeat split. Qed.

(** C9, at two failing inputs.  First: connection 1 advertises "ABC123",
    connection 2 opens and closes without subscribing to anything, and the
    close handler deletes the entry, empty as it still is; the [subscribe]
    of connection 3 is then answered with the error.  Second: after an
    [advertise] for "constructor" the table holds the inherited member
    under that name, not an empty list, and the [subscribe] that follows
    fails on [push]. *)
Theorem advertised_code_not_subscribable :
  (let st1 := (run (λ _, 0%Q)
                 [Open 1; Message 1 (advertise (Some (JString "ABC123")))]).1 in
   let st2 := (run (λ _, 0%Q)
                 [Open 1; Message 1 (advertise (Some (JString "ABC123")));
                  Open 2; Close 2]).1 in
   let r := dispatch (λ _, 0%Q)
              (Message 3 (subscribe (Some (JString "ABC123")))) st2 in
   wsSubscribers st1 = [("ABC123", Subscribers [])]
   ∧ wsSubscribers st2 = []
   ∧ sent r = [(WS 3 4, error "Invalid or unknown code")])
  ∧ (let st := (run (λ _, 0%Q)
                  [Open 1;
                   Message 1 (advertise (Some (JString "constructor")))]).1 in
     let r := dispatch (λ _, 0%Q)
                (Message 2 (subscribe (Some (JString "constructor")))) st in
     wsSubscribers st = [("constructor", Inherited "constructor")]
     ∧ sent r = [] ∧ completed r = TypeError).
Proof. vm_compute. repeat split. Qed.

(** C10, at the failing input: connection 1 sends an [advertise] whose code
    is the empty array.  The array is truthy, so no code is generated, and
    as a property key it is the empty string: the table gets the key "".
    Connection 2 subscribes with the same code.  Connection 3, which has
    never advertised, then sends a location update, and it is delivered to
    connection 2. *)
Theorem empty_key_reachable :
  let st := (run (λ _, 0%Q)
               [Open 1; Message 1 (advertise (Some (JArray [])));
                Open 2; Message 2 (subscribe (Some (JArray [])));
                Open 3]).1 in
  let r := dispatch (λ _, 0%Q)
             (Message 3 (location_update (Some "{lat:1,lon:2}") (Some "[]")))
             st in
  wsSubscribers st = [("", Subscribers [WS 2 3])]
  ∧ advertising st !! 3 = None
  ∧ sent r = [(WS 2 3, location_msg (Some "{lat:1,lon:2}") (Some "[]"))]
  ∧ recipients (sent r) = [2].
Proof. vm_compute. repeat split. Qed.

(** ** What the fresh handles do to a run *)

(** Nobody is left out of a broadcast.  In every state the relay can reach,
    a [location] message is sent on every handle listed under the sender's
    advertising code, once per listing and in list order: the handle of the
    call is new, so the test [subscriber !== ws] holds for all of them,
    the handles of the sender's own connection included. *)
Theorem location_reaches_every_listing (Math_random : nat → Q)
    (tr : list event) (c : conn) (upd : client_msg) (l : list WSContext) :
  type upd = "location" →
  member (wsSubscribers (run Math_random tr).1)
    (ToString (advertising_of (run Math_random tr).1 c))
  = Some (Subscribers l) →
  sent (dispatch Math_random (Message c upd) (run Math_random tr).1)
  = (λ h, (h, location_msg (location upd) (route upd))) <$> l
  ∧ completed (dispatch Math_random (Message c upd) (run Math_random tr).1)
    = Normal.
Proof.
  intros Hty Hmem. cbn [dispatch]. unfold onMessage.
  rewrite !decide_False by (rewrite Hty; discriminate).
  rewrite decide_True by done.
  cbn [wsSubscribers advertising]. unfold advertising_of in *.
  cbn [advertising]. rewrite Hmem. cbn [sent completed]. split; [|done].
  apply forEach_location_fresh.
  apply member_Subscribers in Hmem.
  eapply fresh_handle; [apply run_fresh | done].
Qed.

Lemma location_reaches_every_listing_witness :
  sent (dispatch (λ _, 0%Q)
          (Message 1 (location_update None None))
          (run (λ _, 0%Q)
             [Open 1; Message 1 (advertise (Some (JString "ABC123")));
              Open 2; Message 2 (subscribe (Some (JString "ABC123")));
              Message 1 (subscribe (Some (JString "ABC123")));
              Close 2]).1)
  = [(WS 2 3, location_msg None None); (WS 1 4, location_msg None None)].
Proof.
  apply (location_reaches_every_listing (λ _, 0%Q)
           [Open 1; Message 1 (advertise (Some (JString "ABC123")));
            Open 2; Message 2 (subscribe (Some (JString "ABC123")));
            Message 1 (subscribe (Some (JString "ABC123")));
            Close 2]
           1 (location_update None None) [WS 2 3; WS 1 4]);
    reflexivity.
Defined.

(** Closing unsubscribes nobody.  In every state the relay can reach, the
    close handler leaves every list that is not empty exactly as it was:
    its [ws] is a handle made for the close call, which no list holds, so
    the filter keeps everything.  (The empty ones are what it deletes.) *)
Theorem close_removes_nobody (Math_random : nat → Q) (tr : list event)
    (c : conn) (k : string) (l : list WSContext) :
  own (wsSubscribers (run Math_random tr).1) k = Some (Subscribers l) →
  l ≠ [] →
  own (wsSubscribers
         (state (dispatch Math_random (Close c) (run Math_random tr).1))) k
  = Some (Subscribers l).
Proof.
  intros Hl Hne. cbn [dispatch]. unfold onClose. cbn [wsSubscribers].
  destruct (onClose_loop _ _ _) as [t c0] eqn:Hloop.
  cbn [state with_table wsSubscribers].
  assert (t = (onClose_loop (WS c (contexts (run Math_random tr).1))
                 (wsSubscribers (run Math_random tr).1).*1
                 (wsSubscribers (run Math_random tr).1)).1) as ->
    by by rewrite Hloop.
  apply onClose_loop_keeps; [done | | done].
  eapply fresh_handle; [apply run_fresh | done].
Qed.

Lemma close_removes_nobody_witness :
  own (wsSubscribers
         (state (dispatch (λ _, 0%Q) (Close 2)
                   (run (λ _, 0%Q)
                      [Open 1; Message 1 (advertise (Some (JString "ABC123")));
                       Open 2;
                       Message 2 (subscribe (Some (JString "ABC123")))]).1)))
    "ABC123"
  = Some (Subscribers [WS 2 3]).
Proof.
  apply (close_removes_nobody (λ _, 0%Q)
           [Open 1; Message 1 (advertise (Some (JString "ABC123")));
            Open 2; Message 2 (subscribe (Some (JString "ABC123")))]
           2 "ABC123" [WS 2 3]); [reflexivity | discriminate].
Defined.

(** Listed once, listed for good.  A handle that is in the list of a code
    at some point of a run is in it at every later point, whatever happens
    in between, the closing of its connection included. *)
Theorem listed_for_good (Math_random : nat → Q) (tr tr' : list event)
    (k : string) (h : WSContext) :
  listed (wsSubscribers (run Math_random tr).1) k h →
  listed (wsSubscribers (run Math_random (tr ++ tr')).1) k h.
Proof.
  intros Hlisted. rewrite served_app.
  apply foldl_step_keeps_listed; [apply run_fresh | done].
Qed.

Lemma listed_for_good_witness :
  listed
    (wsSubscribers
       (run (λ _, 0%Q)
          ([Open 1; Message 1 (advertise (Some (JString "ABC123")));
            Open 2; Message 2 (subscribe (Some (JString "ABC123")))]
           ++ [Close 2; Open 3; Close 3;
               Message 1 (advertise (Some (JString "OTHER1")))])).1)
    "ABC123" (WS 2 3).
Proof.
  apply (listed_for_good (λ _, 0%Q)
           [Open 1; Message 1 (advertise (Some (JString "ABC123")));
            Open 2; Message 2 (subscribe (Some (JString "ABC123")))]
           [Close 2; Open 3; Close 3;
            Message 1 (advertise (Some (JString "OTHER1")))]
           "ABC123" (WS 2 3)).
  exists [WS 2 3]. split; [reflexivity | by left].
Defined.

End Served.

End Relay.

(** * Properties of the HTTP routes and of the token check *)
Module ApiFacts.

Import Api.

(** ** Configuration and routes *)

(** Membership in a list given in full, decided by evaluation. *)
Ltac listed :=
  match goal with
  | |- _ ∈ _ => apply (bool_decide_unpack _); exact I
  | |- _ → _ ∈ _ => intros _; apply (bool_decide_unpack _); exact I
  | |- _ ∈ _ → _ =>
      let H := fresh in
      intros H; apply (bool_decide_pack _) in H; solve [destruct H]
  | |- _ => done
  end.

(** The capability list always starts with "auth" and "reviews", whatever
    the environment (also with [OIDC_ENABLED] and [REVIEWS_ENABLED] unset);
    "ai" and "fuel" are listed exactly when their API key is set, nothing is
    listed twice, and the [oidc] member is there exactly when
    [OIDC_ENABLED] is set. *)
Theorem config_capabilities (env : gmap string string) :
  let cfg := get_config env in
  (∃ rest, capabilities cfg = "auth" :: "reviews" :: rest)
  ∧ NoDup (capabilities cfg)
  ∧ ("ai" ∈ capabilities cfg
     ↔ env_set env "GOOGLE_GENERATIVE_AI_API_KEY" = true)
  ∧ ("fuel" ∈ capabilities cfg ↔ env_set env "TANKERKOENIG_API_KEY" = true)
  ∧ (is_Some (oidc cfg) ↔ env_set env "OIDC_ENABLED" = true).
Proof.
  unfold get_config. cbn [capabilities oidc].
  destruct (env_set env "GOOGLE_GENERATIVE_AI_API_KEY");
    destruct (env_set env "TANKERKOENIG_API_KEY");
    destruct (env_set env "OIDC_ENABLED"); cbn [app].
  all: split; [eexists; reflexivity |].
  all: split; [apply (bool_decide_unpack _); exact I |].
  all: repeat split; try listed; try (by intros [? ?]); eauto.
Qed.

(** What [/api/config] announces is what is routed: the three fuel routes
    are registered exactly when "fuel" is announced, [POST /api/ai] exactly
    when "ai" is, and the two review routes and the relay always are. *)
Theorem routes_match_config (env : gmap string string) :
  let caps := capabilities (get_config env) in
  ("fuel" ∈ caps ↔ ("GET", "/api/fuel/list") ∈ routes env)
  ∧ ("fuel" ∈ caps ↔ ("GET", "/api/fuel/prices") ∈ routes env)
  ∧ ("fuel" ∈ caps ↔ ("GET", "/api/fuel/detail") ∈ routes env)
  ∧ ("ai" ∈ caps ↔ ("POST", "/api/ai") ∈ routes env)
  ∧ ("reviews" ∈ caps ∧ ("GET", "/api/reviews") ∈ routes env
     ∧ ("POST", "/api/review") ∈ routes env)
  ∧ ("GET", "/api/ws") ∈ routes env.
Proof.
  unfold get_config, routes. cbn [capabilities].
  destruct (env_set env "GOOGLE_GENERATIVE_AI_API_KEY");
    destruct (env_set env "TANKERKOENIG_API_KEY"); cbn [app].
  all: repeat split; listed.
Qed.

(** ** The API key of the fuel proxies *)

Lemma URLSearchParams_set_named (name value : string)
    (params : list (string * string)) :
  filter (λ p, p.1 = name) (URLSearchParams_set name value params)
  = [(name, value)].
Proof.
  induction params as [|[n v] rest IH]; cbn [URLSearchParams_set].
  - by rewrite filter_cons_True.
  - case_decide as Hn.
    + rewrite filter_cons_True by done. f_equal.
      rewrite list_filter_filter. clear.
      induction rest as [|p rest IH]; [done |].
      rewrite filter_cons_False by tauto. apply IH.
    + by rewrite filter_cons_False.
Qed.

Lemma URLSearchParams_set_others (name value : string)
    (params : list (string * string)) :
  filter (λ p, p.1 ≠ name) (URLSearchParams_set name value params)
  = filter (λ p, p.1 ≠ name) params.
Proof.
  induction params as [|[n v] rest IH]; cbn [URLSearchParams_set].
  - by rewrite filter_cons_False by (cbn; tauto).
  - case_decide as Hn.
    + rewrite !filter_cons_False by (cbn; tauto).
      rewrite list_filter_filter. apply list_filter_iff. tauto.
    + by rewrite !filter_cons_True, IH.
Qed.

(** Of the record [c.req.query()] returns, the parameters sent to the fuel
    API keep every entry but [apikey], in the record's order, and hold
    exactly one [apikey], the server's own: an [apikey] entry of the record
    is overwritten. *)
Theorem fuel_apikey (key : string) (query : list (string * string)) :
  filter (λ p, p.1 = "apikey") (fuel_params key query) = [("apikey", key)]
  ∧ filter (λ p, p.1 ≠ "apikey") (fuel_params key query)
    = filter (λ p, p.1 ≠ "apikey") query.
Proof.
  split; [apply URLSearchParams_set_named | apply URLSearchParams_set_others].
Qed.

Example fuel_apikey_overridden :
  fuel_params "SERVERKEY" [("lat", "52.5"); ("apikey", "mine"); ("rad", "5")]
  = [("lat", "52.5"); ("apikey", "SERVERKEY"); ("rad", "5")].
Proof. reflexivity. Qed.

(** What a fuel proxy answers itself, and when it does not.  Every reply
    it sends has status 200: the handler's error object when the fuel API
    answered with an error status, and otherwise the JSON the fuel API
    sent.  It ends in an exception, and so sends no reply of its own,
    exactly when the fetch fails or an answer with a good status is not
    JSON. *)
Theorem fuel_reply_status (toString : list (string * string) → string)
    (fetch : string → outcome upstream) (script failure key : string)
    (query : list (string * string)) :
  (∀ r, fuel_handler toString fetch script failure key query = Returns r →
     status r = 200
     ∧ ∃ res, fetch (fuel_url toString script key query) = Returns res
         ∧ (ok res = false → body r = ErrorBody failure)
         ∧ (ok res = true → ∃ data, json res = Returns data
                                    ∧ body r = JsonBody data))
  ∧ (fuel_handler toString fetch script failure key query = Throws
     ↔ fetch (fuel_url toString script key query) = Throws
       ∨ ∃ res, fetch (fuel_url toString script key query) = Returns res
           ∧ ok res = true ∧ json res = Throws).
Proof.
  unfold fuel_handler.
  destruct (fetch _) as [res|].
  2: { split; [done |]. split; [by left | done]. }
  destruct (ok res) eqn:Hok; cbn [negb].
  - destruct (json res) as [data|] eqn:Hdata.
    + split.
      * intros r [= <-]. split; [done |]. exists res.
        split; [done |]. split; [by rewrite Hok |].
        intros _. by exists data.
      * split; [done |].
        intros [? | (res' & [= <-] & _ & ?)]; congruence.
    + split; [done |]. split; [|done]. intros _. right. by exists res.
  - split.
    + intros r [= <-]. split; [done |]. exists res.
      split; [done |]. split; [done |]. by rewrite Hok.
    + split; [done |].
      intros [? | (res' & [= <-] & ? & _)]; congruence.
Qed.

Lemma fuel_reply_status_witness :
  fuel_handler (λ _, "") (λ _, Throws) "list.php"
    "Failed to fetch fuel stations" "SERVERKEY" [] = Throws
  ∧ status (Response 200 (ErrorBody "Failed to fetch fuel stations")) = 200.
Proof.
  split.
  - apply (proj2 (fuel_reply_status (λ _, "") (λ _, Throws) "list.php"
                    "Failed to fetch fuel stations" "SERVERKEY" [])).
    by left.
  - apply (proj1 (fuel_reply_status (λ _, "")
                    (λ _, Returns (Upstream false Throws)) "list.php"
                    "Failed to fetch fuel stations" "SERVERKEY" [])
             (Response 200 (ErrorBody "Failed to fetch fuel stations"))).
    reflexivity.
Defined.

(** ** The bearer token *)

Lemma prefix_app (p s : string) :
  String.prefix p s = true ↔ ∃ r, s = p +:+ r.
Proof.
  revert s. induction p as [|a p IH]; intros s.
  - split; [intros _; by exists s | intros _; by destruct s].
  - destruct s as [|b s]; cbn [String.prefix].
    + split; [done | by intros [r [=]]].
    + destruct (Ascii.ascii_dec a b) as [->|Hne].
      * rewrite IH. split.
        -- intros [r ->]. by exists r.
        -- intros [r [= ->]]. by exists r.
      * split; [done |]. intros [r [= ? ?]]. done.
Qed.

Lemma split_not_nil (sep : Ascii.ascii) (s : string) : split sep s ≠ [].
Proof.
  destruct s as [|a s]; cbn [split]; [done |].
  case_decide; [done |]. by destruct (split sep s).
Qed.

Lemma split_spaceless (t : string) : spaceless t → split space t = [t].
Proof.
  unfold spaceless. induction t as [|a t IH]; [done |].
  cbn. intros [Ha Ht]%Forall_cons.
  rewrite decide_False by done. by rewrite IH.
Qed.

Lemma split_field (t r : string) :
  spaceless t → split space (t +:+ String space r) = t :: split space r.
Proof.
  unfold spaceless. induction t as [|a t IH].
  - intros _. change (split space (String space r) = "" :: split space r).
    cbn [split]. by rewrite decide_True.
  - cbn. intros [Ha Ht]%Forall_cons.
    change (String a t +:+ String space r)
      with (String a (t +:+ String space r)).
    cbn [split]. rewrite decide_False by done. by rewrite IH.
Qed.

(** The first field of a split has no separator in it, and the string is
    that field alone or that field, a separator, and a remainder. *)
Lemma split_first (r : string) :
  ∃ t xs, split space r = t :: xs ∧ spaceless t
          ∧ (r = t ∨ ∃ r', r = t +:+ String space r').
Proof.
  induction r as [|a r (t & xs & Hsplit & Ht & Hr)].
  - exists "", []. repeat split; [constructor | by left].
  - cbn [split]. destruct (decide (a = space)) as [->|Ha].
    + exists "", (split space r). repeat split; [constructor |].
      right. by exists r.
    + rewrite Hsplit. exists (String a t), xs.
      repeat split; [by constructor |].
      destruct Hr as [->|[r' ->]]; [by left | right; by exists r'].
Qed.

(** The token taken from an [Authorization] header.  A header gets past
    the check exactly when it is "Bearer ", a non-empty token without a
    space, and then either nothing or a space and anything at all; the
    token is what stands between the first and the second space.  So the
    scheme is case-sensitive, two spaces after it are refused, and whatever
    follows the token is ignored. *)
Theorem bearer_token_spec (h t : string) :
  bearer_token (Some h) = Some t
  ↔ t ≠ "" ∧ spaceless t
    ∧ (h = "Bearer " +:+ t ∨ ∃ rest, h = "Bearer " +:+ t +:+ " " +:+ rest).
Proof.
  assert (∀ r, split space ("Bearer " +:+ r) !! 1 = head (split space r))
    as Hfield.
  { intros r.
    change ("Bearer " +:+ r) with ("Bearer" +:+ String space r).
    rewrite split_field by (repeat constructor; discriminate).
    by destruct (split space r). }
  unfold bearer_token, startsWith. split.
  - destruct (bool_decide (h = "")); [done |]. cbn [orb].
    destruct (String.prefix "Bearer " h) eqn:Hpre; [|done]. cbn [negb].
    apply prefix_app in Hpre as [r ->]. rewrite Hfield.
    destruct (split_first r) as (t0 & xs & -> & Ht0 & Hr). cbn [head].
    case_decide; [done |]. intros [= <-].
    repeat split; [done | done |].
    destruct Hr as [->|[r' ->]]; [by left | right; by exists r'].
  - intros (Hne & Ht & Hh).
    assert (∃ r, h = "Bearer " +:+ r ∧ head (split space r) = Some t)
      as (r & -> & Hhead).
    { destruct Hh as [->|[rest ->]].
      - exists t. by rewrite split_spaceless.
      - exists (t +:+ " " +:+ rest). split; [done |].
        change (" " +:+ rest) with (String space rest).
        by rewrite split_field. }
    rewrite bool_decide_eq_false_2 by done. cbn [orb].
    rewrite (proj2 (prefix_app "Bearer " _)) by eauto. cbn [negb].
    rewrite Hfield, Hhead. by rewrite decide_False.
Qed.

Lemma bearer_token_spec_witness :
  bearer_token (Some "Bearer abc.def and more") = Some "abc.def".
Proof.
  apply (bearer_token_spec "Bearer abc.def and more" "abc.def").
  split; [discriminate |]. split; [repeat constructor; discriminate |].
  right. by exists "and more".
Defined.

Example bearer_token_plain :
  bearer_token (Some "Bearer abc.def") = Some "abc.def".
Proof. reflexivity. Qed.

Example bearer_token_trailing :
  bearer_token (Some "Bearer abc.def and more") = Some "abc.def".
Proof. reflexivity. Qed.

Example bearer_token_two_spaces : bearer_token (Some "Bearer  abc.def") = None.
Proof. reflexivity. Qed.

Example bearer_token_lower_case : bearer_token (Some "bearer abc.def") = None.
Proof. reflexivity. Qed.

(** ** Token verification *)

(** [verifyToken] says yes only for a token that decodes with a non-empty
    key id, when the JWKS was fetched and has a key with that id, and
    [verify] accepted the token under the PEM of the first such key, with
    that key's algorithm as the only one allowed, returning an object with
    a [sub] member. *)
Theorem verifyToken_accepts (lib : jwt_lib) (jwks : outcome (list jwk))
    (token : string) :
  verifyToken lib jwks token = Returns true →
  ∃ keys d h i key pem sub,
    jwks = Returns keys
    ∧ decode_complete lib token = Returns (Some d)
    ∧ header d = Some h
    ∧ header_kid h = Some (kid key)
    ∧ kid key ≠ ""
    ∧ keys !! i = Some key
    ∧ (∀ j key', keys !! j = Some key' → j < i → kid key' ≠ kid key)
    ∧ jwkToPem lib key = Returns pem
    ∧ verify lib token pem [alg key] = Returns (PayloadObject (Some sub)).
Proof.
  unfold verifyToken.
  destruct (decode_complete lib token) as [[d|]|]; [| |done].
  2: { by destruct jwks. }
  destruct jwks as [keys|]; [|done].
  destruct (header d) as [h|] eqn:Hh; [|done].
  destruct (header_kid h) as [k|] eqn:Hk; [|done].
  case_decide as Hne; [done |].
  destruct (list_find _ keys) as [[i key]|] eqn:Hfind; [|done].
  apply list_find_Some in Hfind as (Hi & <- & Hfirst).
  destruct (jwkToPem lib key) as [pem|] eqn:Hpem; [|done].
  destruct (verify lib token pem [alg key]) as [[s|[sub|]]|] eqn:Hv;
    try done.
  intros _. exists keys, d, h, i, key, pem, sub.
  repeat split; try done; intros j key' Hj Hlt; by apply (Hfirst j key').
Qed.

Lemma verifyToken_accepts_witness :
  ∃ keys d h i key pem sub,
    Returns demo_jwks = Returns keys
    ∧ decode_complete demo_lib "good" = Returns (Some d)
    ∧ header d = Some h
    ∧ header_kid h = Some (kid key)
    ∧ kid key ≠ ""
    ∧ keys !! i = Some key
    ∧ (∀ j key', keys !! j = Some key' → j < i → kid key' ≠ kid key)
    ∧ jwkToPem demo_lib key = Returns pem
    ∧ verify demo_lib "good" pem [alg key]
      = Returns (PayloadObject (Some sub)).
Proof.
  apply (verifyToken_accepts demo_lib (Returns demo_jwks) "good").
  reflexivity.
Defined.

Lemma list_find_first (k : string) (pre rest : list jwk) (key : jwk) :
  Forall (λ key', kid key' ≠ k) pre →
  kid key = k →
  list_find (λ key', kid key' = k) (pre ++ key :: rest)
  = Some (length pre, key).
Proof.
  intros Hpre Hkey. apply list_find_Some. split; [|split; [done |]].
  - by rewrite lookup_app_r, Nat.sub_diag.
  - intros j key' Hj Hlt. rewrite lookup_app_l in Hj by done.
    rewrite Forall_forall in Hpre. apply Hpre.
    by eapply list_elem_of_lookup_2.
Qed.

(** Only the first key with the token's key id counts: the keys before it
    and all the keys after it, also those with the same id, have no
    influence on the answer. *)
Theorem verifyToken_first_key (lib : jwt_lib) (pre rest : list jwk)
    (key : jwk) (token : string) (d : jwt_complete) (h : jwt_header) :
  decode_complete lib token = Returns (Some d) →
  header d = Some h →
  header_kid h = Some (kid key) →
  Forall (λ key', kid key' ≠ kid key) pre →
  verifyToken lib (Returns (pre ++ key :: rest)) token
  = verifyToken lib (Returns [key]) token.
Proof.
  intros Hd Hh Hk Hpre. unfold verifyToken. rewrite Hd, Hh, Hk.
  case_decide; [done |].
  rewrite (list_find_first (kid key) pre rest key) by done.
  assert (list_find (λ key', kid key' = kid key) [key] = Some (0, key))
    as -> by (by apply (list_find_first (kid key) [] [] key)).
  done.
Qed.

Lemma verifyToken_first_key_witness :
  verifyToken demo_lib (Returns demo_jwks) "good" = Returns true
  ∧ verifyToken demo_lib
      (Returns [Jwk "k1" "RSA" "sig" "RS256" "N2" "AQAB";
                Jwk "k1" "RSA" "sig" "RS256" "N1" "AQAB"]) "good"
    = verifyToken demo_lib
        (Returns [Jwk "k1" "RSA" "sig" "RS256" "N2" "AQAB"]) "good".
Proof.
  split; [reflexivity |].
  apply (verifyToken_first_key demo_lib []
           [Jwk "k1" "RSA" "sig" "RS256" "N1" "AQAB"]
           (Jwk "k1" "RSA" "sig" "RS256" "N2" "AQAB") "good"
           (JwtComplete (Some (JwtHeader (Some "k1"))))
           (JwtHeader (Some "k1")));
    [reflexivity | reflexivity | reflexivity | constructor].
Defined.

(** ** Posting a review *)

(** A review is written only for a verified caller.  If the handler sends
    a query to the database at all, then rating, latitude and longitude
    were truthy, the header carried a bearer token that [verifyToken]
    accepted, the token decodes to a non-empty subject, and the one query
    sent inserts the body's values under that subject. *)
Theorem review_insert_guarded (lib : jwt_lib) (jwks : outcome (list jwk))
    (pool_query : db_query → outcome string) (req : review_request)
    (q : db_query) :
  q ∈ (post_review lib jwks pool_query req).1 →
  ∃ token uid,
    truthy (rating req) = true ∧ truthy (lat req) = true
    ∧ truthy (lon req) = true
    ∧ bearer_token (Authorization req) = Some token
    ∧ verifyToken lib jwks token = Returns true
    ∧ getTokenUID lib token = Returns (Some uid)
    ∧ uid ≠ ""
    ∧ (post_review lib jwks pool_query req).1
      = [InsertReview uid (lat req) (lon req) (rating req) (comment req)].
Proof.
  unfold post_review.
  destruct (truthy (rating req)); [|by intros ?%elem_of_nil].
  destruct (truthy (lat req)); [|by intros ?%elem_of_nil].
  destruct (truthy (lon req)); [|by intros ?%elem_of_nil].
  cbn [negb orb].
  destruct (bearer_token (Authorization req)) as [token|];
    [|by intros ?%elem_of_nil].
  destruct (verifyToken lib jwks token) as [[]|] eqn:Hverified;
    [|by intros ?%elem_of_nil..].
  destruct (getTokenUID lib token) as [[uid|]|] eqn:Huid;
    [|by intros ?%elem_of_nil..].
  case_decide; [by intros ?%elem_of_nil |].
  intros _. exists token, uid. by repeat split.
Qed.

Lemma review_insert_guarded_witness :
  ∃ token uid,
    truthy (rating demo_request) = true ∧ truthy (lat demo_request) = true
    ∧ truthy (lon demo_request) = true
    ∧ bearer_token (Authorization demo_request) = Some token
    ∧ verifyToken demo_lib (Returns demo_jwks) token = Returns true
    ∧ getTokenUID demo_lib token = Returns (Some uid)
    ∧ uid ≠ ""
    ∧ (post_review demo_lib (Returns demo_jwks) demo_pool demo_request).1
      = [InsertReview uid (lat demo_request) (lon demo_request)
           (rating demo_request) (comment demo_request)].
Proof.
  apply (review_insert_guarded demo_lib (Returns demo_jwks) demo_pool
           demo_request
           (InsertReview "user-1" (Number (Finite (105 # 2)))
              (Number (Finite (27 # 2))) (Number (Finite 5)) (Str "fine"))).
  assert ((post_review demo_lib (Returns demo_jwks) demo_pool demo_request).1
          = [InsertReview "user-1" (Number (Finite (105 # 2)))
               (Number (Finite (27 # 2))) (Number (Finite 5)) (Str "fine")])
    as -> by reflexivity.
  by left.
Defined.



(** The fields are checked before the caller is: when rating, latitude or
    longitude is falsy the reply is the 400 error, with or without valid
    credentials, and nothing is verified or stored.  Falsy includes the
    number 0, so a review on the equator or on the prime meridian is
    refused as if the coordinate were missing. *)
Theorem review_fields_first (lib : jwt_lib) (jwks : outcome (list jwk))
    (pool_query : db_query → outcome string) (req : review_request) :
  truthy (rating req) && truthy (lat req) && truthy (lon req) = false →
  post_review lib jwks pool_query req
  = ([], Returns (Response 400
                    (ErrorBody "Rating, latitude, and longitude are required"))).
Proof.
  intros Hfalsy. unfold post_review.
  by destruct (truthy (rating req)), (truthy (lat req)), (truthy (lon req)).
Qed.

Lemma review_fields_first_witness :
  post_review demo_lib (Returns demo_jwks) demo_pool
    {| rating := Number (Finite 5);
       comment := Str "on the equator";
       lat := Number (Finite 0);
       lon := Number (Finite (27 # 2));
       Authorization := Some "Bearer good" |}
  = ([], Returns (Response 400
                    (ErrorBody "Rating, latitude, and longitude are required"))).
Proof.
  apply (review_fields_first demo_lib (Returns demo_jwks) demo_pool).
  reflexivity.
Defined.

End ApiFacts.
